(** * semantic_router/index/local.py: the in-memory vector index

    A shallow embedding of the class [LocalIndex] and the properties its
    specification states about it.

    Python objects are modelled as the code uses them:
    - the two label sequences are Python lists, mutable objects that live in
      a heap and are reached through references ([self.routes.append] writes
      in place, [self.routes = [...]] rebinds the attribute to a new list);
    - the vector storage is a two-dimensional NumPy array; the code never
      writes into an array, every call ([reshape], [vstack], [delete])
      produces a new one, so arrays are values;
    - an exception ends the call where it is raised and keeps every
      assignment made before it.

    Read from the source:
    - the module uses the name [np] and does not import it; it is NumPy, as
      the annotations [np.ndarray] say;
    - a vector is a one-dimensional array, its components are floats and are
      modelled as rationals: the class itself never computes with them;
    - [top_k] is a count, a natural number;
    - [similarity_matrix] and [top_scores] come from [semantic_router.linear],
      which is not among the sources; they are modelled from the
      specification, in [Linear] below. *)

From Stdlib Require Import QArith Sorted Permutation.
From stdpp Require Import base tactics option list strings.

Local Open Scope string_scope.
Local Open Scope list_scope.
Local Open Scope nat_scope.

(** ** Python: exceptions, heap and the monad of a method call *)

Module Py.

Inductive exn : Type :=
| ValueError (msg : string)
| NameError (name : string)
| TypeError (msg : string)
| AttributeError (msg : string)
| IndexError (msg : string)
| AxisError (msg : string)
    (* numpy.exceptions.AxisError *)
| IllTyped
    (* not a Python exception: an attribute annotated [List[str]] refers
       to something else; the annotations of [__init__] exclude it *).

Inductive outcome (A : Type) : Type :=
| Return (a : A)
| Raise (e : exn).
Global Arguments Return {A} a.
Global Arguments Raise {A} e.

Abbreviation loc := nat (only parsing).

(** The list objects the class handles: lists of strings ([routes],
    [utterances], the labels [query] returns) and the list of pairs
    [get_routes] returns.  Strings and tuples are immutable: values. *)
Inductive pyobj : Type :=
| StrList (items : list string)
| PairList (items : list (string * string)).

Abbreviation heap := (list pyobj).

End Py.
Export Py.

(** ** NumPy: the three array operations the class calls *)

Module Np.

(** A one-dimensional array of floats; the scalars are never inspected by
    the class, they are modelled as rationals. *)
Definition ndarray1 := list Q.

(** A two-dimensional array of shape [(length rows, shape1)].  An array
    with no row still has its second dimension. *)
Record ndarray2 : Type := mk_ndarray2 { rows : list ndarray1; shape1 : nat }.

Definition shape0 (a : ndarray2) : nat := length (rows a).

(** Every row has the array's second dimension. *)
Definition rectangular (a : ndarray2) : Prop :=
  Forall (λ v, length v = shape1 a) (rows a).

(** [vector.reshape(1, -1)] *)
Definition reshape_1_m1 (vector : ndarray1) : ndarray2 :=
  {| rows := [vector]; shape1 := length vector |}.

(** [np.vstack([a, vector])]: the vector becomes a row; the second
    dimensions must agree. *)
Definition vstack (a : ndarray2) (vector : ndarray1) : outcome ndarray2 :=
  if length vector =? shape1 a
  then Return {| rows := rows a ++ [vector]; shape1 := shape1 a |}
  else Raise (ValueError "all the input array dimensions except for the concatenation axis must match exactly").

(** Python's [enumerate]. *)
Definition enumerate {A} (l : list A) : list (nat * A) :=
  combine (seq 0 (length l)) l.

Definition keep_row (obj : list nat) (ix : nat * ndarray1) : bool :=
  negb (existsb (Nat.eqb (fst ix)) obj).

(** [np.delete(a, obj, axis=0)] for a list [obj] of non-negative indices:
    a new array without the rows whose position is listed; an index past
    the last row is an error.  [a] is [None] when the attribute was never
    set: NumPy reads it as a zero-dimensional array, which has no axis 0. *)
Definition delete (a : option ndarray2) (obj : list nat) : outcome ndarray2 :=
  match a with
  | None => Raise (AxisError "axis 0 is out of bounds for array of dimension 0")
  | Some a =>
      if forallb (λ i, i <? shape0 a) obj
      then Return {| rows := map snd (List.filter (keep_row obj) (enumerate (rows a)));
                     shape1 := shape1 a |}
      else Raise (IndexError "index is out of bounds for axis 0")
  end.

End Np.

(** ** The object and the world a call runs in *)

(** The three attributes [__init__] sets.  [None] is the default of each. *)
Record LocalIndex : Type := mkLocalIndex {
  index : option Np.ndarray2;
  routes : option loc;
  utterances : option loc
}.

Record world : Type := mkWorld { objects : heap; self : LocalIndex }.

(** A method call: it runs in a world, leaves a world, and returns or raises. *)
Definition py (A : Type) : Type := world → world * outcome A.

#[global] Instance py_ret : MRet py := λ A a w, (w, Return a).
#[global] Instance py_bind : MBind py := λ A B f m w,
  match m w with
  | (w', Return a) => f a w'
  | (w', Raise e) => (w', Raise e)
  end.

Definition raise {A} (e : exn) : py A := λ w, (w, Raise e).

(** A NumPy call: its result or its exception. *)
Definition np {A} (r : outcome A) : py A := λ w, (w, r).

Definition get_index : py (option Np.ndarray2) := λ w, (w, Return (index (self w))).
Definition get_routes_attr : py (option loc) := λ w, (w, Return (routes (self w))).
Definition get_utterances_attr : py (option loc) := λ w, (w, Return (utterances (self w))).

Definition set_index (v : option Np.ndarray2) : py unit := λ w,
  ({| objects := objects w;
      self := {| index := v; routes := routes (self w); utterances := utterances (self w) |} |},
   Return ()).
Definition set_routes (v : option loc) : py unit := λ w,
  ({| objects := objects w;
      self := {| index := index (self w); routes := v; utterances := utterances (self w) |} |},
   Return ()).
Definition set_utterances (v : option loc) : py unit := λ w,
  ({| objects := objects w;
      self := {| index := index (self w); routes := routes (self w); utterances := v |} |},
   Return ()).

(** A list display or a comprehension's result: a new object. *)
Definition new_object (o : pyobj) : py loc := λ w,
  ({| objects := objects w ++ [o]; self := self w |}, Return (length (objects w))).

(** The items of the list of strings an attribute refers to, for [for x in
    attr] and [zip].  Iterating [None] is a [TypeError]. *)
Definition iterate (attr : option loc) : py (list string) := λ w,
  match attr with
  | None => (w, Raise (TypeError "'NoneType' object is not iterable"))
  | Some l =>
      match objects w !! l with
      | Some (StrList xs) => (w, Return xs)
      | _ => (w, Raise IllTyped)
      end
  end.

(** [attr.append(x)]: the list object is changed in place. *)
Definition append (attr : option loc) (x : string) : py unit := λ w,
  match attr with
  | None => (w, Raise (AttributeError "'NoneType' object has no attribute 'append'"))
  | Some l =>
      match objects w !! l with
      | Some (StrList xs) =>
          ({| objects := <[l := StrList (xs ++ [x])]> (objects w); self := self w |},
           Return ())
      | _ => (w, Raise IllTyped)
      end
  end.

(** [attr[i]] for a non-negative [i]. *)
Definition subscript (attr : option loc) (i : nat) : py string := λ w,
  match attr with
  | None => (w, Raise (TypeError "'NoneType' object is not subscriptable"))
  | Some l =>
      match objects w !! l with
      | Some (StrList xs) =>
          match xs !! i with
          | Some x => (w, Return x)
          | None => (w, Raise (IndexError "list index out of range"))
          end
      | _ => (w, Raise IllTyped)
      end
  end.

(** [[f x for x in l]] *)
Fixpoint comprehension {A B} (f : A → py B) (l : list A) : py (list B) :=
  match l with
  | [] => mret []
  | x :: l' => y ← f x; ys ← comprehension f l'; mret (y :: ys)
  end.

(** [[x for x in l if cond x]]: the condition is evaluated once per item,
    in order, and its exception ends the comprehension. *)
Fixpoint comprehension_if {A} (cond : A → py bool) (l : list A) : py (list A) :=
  match l with
  | [] => mret []
  | x :: l' =>
      b ← cond x; ys ← comprehension_if cond l';
      mret (if b : bool then x :: ys else ys)
  end.

(** ** The methods of [LocalIndex] *)

(** [LocalIndex(index, routes, utterances)], called where the objects [h]
    exist: the arguments become the attributes. *)
Definition init (h : heap) (index : option Np.ndarray2) (routes utterances : option loc) : world :=
  {| objects := h;
     self := {| index := index; routes := routes; utterances := utterances |} |}.

(** [LocalIndex()]: the three attributes are [None], no list exists yet. *)
Definition fresh : world := init [] None None None.

Definition add (route utterance : string) (vector : Np.ndarray1) : py unit :=
  ix ← get_index;
  match ix with
  | None =>
      set_index (Some (Np.reshape_1_m1 vector));;
      lr ← new_object (StrList [route]);
      set_routes (Some lr);;
      lu ← new_object (StrList [utterance]);
      set_utterances (Some lu)
  | Some a =>
      a' ← np (Np.vstack a vector);
      set_index (Some a');;
      r ← get_routes_attr;
      append r route;;
      u ← get_utterances_attr;
      append u utterance
  end.

(** [list(zip(self.routes, self.utterances))]: a new list; [zip] stops at
    the shorter argument. *)
Definition get_routes : py loc :=
  r ← get_routes_attr;
  rs ← iterate r;
  u ← get_utterances_attr;
  us ← iterate u;
  new_object (PairList (combine rs us)).

Record description : Type := mkDescription {
  type : string;
  dimensions : nat;
  vectors : nat
}.

Definition describe : py description :=
  ix ← get_index;
  mret {| type := "local";
          dimensions := match ix with Some a => Np.shape1 a | None => 0 end;
          vectors := match ix with Some a => Np.shape0 a | None => 0 end |}.

(** Line 88 of the source reads the name [i] inside a comprehension of its
    own.  The [i] of line 85 is local to that line's comprehension, the
    method has no variable [i] and the module no global [i]: reading it
    raises [NameError]. *)
Definition read_unbound_name {A} (name : string) : py A :=
  raise (NameError name).

Definition delete (route_name : string) : py unit :=
  r ← get_routes_attr;
  match r with
  | None => raise (ValueError "Routes are not populated.")
  | Some _ =>
      rs ← iterate r;
      let delete_idx :=
        map fst (List.filter (λ ir : nat * string, String.eqb (snd ir) route_name) (Np.enumerate rs)) in
      ix ← get_index;
      a' ← np (Np.delete ix delete_idx);
      set_index (Some a');;
      r ← get_routes_attr;
      rs ← iterate r;
      lr ← new_object (StrList (List.filter (λ route, negb (String.eqb route route_name)) rs));
      set_routes (Some lr);;
      u ← get_utterances_attr;
      us ← iterate u;
      us' ← comprehension_if
              (λ utterance : string,
                 r ← get_routes_attr;
                 i ← read_unbound_name "i";
                 x ← subscript r i;
                 mret (negb (String.eqb x route_name)))
              us;
      lu ← new_object (StrList us');
      set_utterances (Some lu)
  end.

(** ** semantic_router.linear: the two collaborators of [query] *)

Module Linear.

(** Modelled from the spec: [semantic_router.linear.similarity_matrix] is
    imported by the module and is not among its sources.  The spec: it
    "computes pairwise similarity scores between one or more query vectors
    and the stored corpus", with a pluggable scoring function.  One score
    per stored row, in row order; the scoring function is a parameter. *)
Definition similarity_matrix (similarity : Np.ndarray1 → Np.ndarray1 → Q)
    (query : Np.ndarray1) (corpus : Np.ndarray2) : list Q :=
  map (similarity query) (Np.rows corpus).

(** The place of a scored position in a list kept in descending order of
    score: before the first entry that does not outrank it. *)
Fixpoint insert_desc (x : nat * Q) (l : list (nat * Q)) : list (nat * Q) :=
  match l with
  | [] => [x]
  | y :: l' => if Qle_bool (snd y) (snd x) then x :: y :: l' else y :: insert_desc x l'
  end.

Definition sort_desc (l : list (nat * Q)) : list (nat * Q) :=
  foldr insert_desc [] l.

(** [p] is ranked no lower than [q]. *)
Definition outranks (p q : nat * Q) : Prop := (snd q <= snd p)%Q.

(** Modelled from the spec: [semantic_router.linear.top_scores] is imported
    by the module and is not among its sources.  The spec: it "extracts the
    k highest scores and their positions from a similarity matrix"; the
    scores come "descending by similarity", ties "stable by index order",
    and a [top_k] larger than the number of entries "returns at most the
    available count". *)
Definition top_scores (sim : list Q) (top_k : nat) : list Q * list nat :=
  let ranked := take top_k (sort_desc (Np.enumerate sim)) in
  (map snd ranked, map fst ranked).

(** The dot product, one scoring function the spec names. *)
Fixpoint dot (u v : Np.ndarray1) : Q :=
  match u, v with
  | x :: u', y :: v' => (x * y + dot u' v')%Q
  | _, _ => 0%Q
  end.

End Linear.

Section Index.

(** The scoring function behind [similarity_matrix]. *)
Variable similarity : Np.ndarray1 → Np.ndarray1 → Q.

Definition query (query_vector : Np.ndarray1) (top_k : nat) : py (list Q * loc) :=
  ix ← get_index;
  match ix with
  | None => raise (ValueError "Index is not populated.")
  | Some a =>
      let sim_matrix := Linear.similarity_matrix similarity query_vector a in
      let '(scores, indices) := Linear.top_scores sim_matrix top_k in
      labels ← comprehension (λ i, r ← get_routes_attr; subscript r i) indices;
      lr ← new_object (StrList labels);
      mret (scores, lr)
  end.

(** *** Sequences of calls *)

Inductive call : Type :=
| CallAdd (route utterance : string) (vector : Np.ndarray1)
| CallGetRoutes
| CallDescribe
| CallQuery (query_vector : Np.ndarray1) (top_k : nat)
| CallDelete (route_name : string).

(** What a call hands back to its caller. *)
Inductive answer : Type :=
| ANone
| APairs (l : loc)
| ADescription (d : description)
| AQuery (scores : list Q) (labels : loc).

Definition run_call (c : call) : py answer :=
  match c with
  | CallAdd route utterance vector => add route utterance vector;; mret ANone
  | CallGetRoutes => l ← get_routes; mret (APairs l)
  | CallDescribe => d ← describe; mret (ADescription d)
  | CallQuery query_vector top_k =>
      '(scores, l) ← query query_vector top_k; mret (AQuery scores l)
  | CallDelete route_name => delete route_name;; mret ANone
  end.

(** The world after a call, whether it returned or raised: the caller
    keeps the object either way. *)
Definition after (c : call) (w : world) : world := fst (run_call c w).

Definition run (cs : list call) (w : world) : world :=
  foldl (λ w c, after c w) w cs.

(** *** What the object holds, read through its references *)

Definition strings_at (h : heap) (attr : option loc) : option (list string) :=
  l ← attr;
  match h !! l with
  | Some (StrList xs) => Some xs
  | _ => None
  end.

Definition pairs_at (h : heap) (l : loc) : option (list (string * string)) :=
  match h !! l with
  | Some (PairList ps) => Some ps
  | _ => None
  end.

Definition stored_vectors (w : world) : list Np.ndarray1 :=
  match index (self w) with Some a => Np.rows a | None => [] end.
Definition stored_routes (w : world) : list string :=
  default [] (strings_at (objects w) (routes (self w))).
Definition stored_utterances (w : world) : list string :=
  default [] (strings_at (objects w) (utterances (self w))).

(** *** States of the object *)

(** The object as every call sequence keeps it once storage exists: the
    array holds [a], the routes attribute a list [rs] with one label per
    row, the utterances attribute another list [us]. *)
Record consistent (w : world) (a : Np.ndarray2) (rs us : list string) : Prop :=
  mkConsistent {
    c_index : index (self w) = Some a;
    c_routes : strings_at (objects w) (routes (self w)) = Some rs;
    c_utterances : strings_at (objects w) (utterances (self w)) = Some us;
    c_separate : routes (self w) ≠ utterances (self w);
    c_rows : length rs = Np.shape0 a;
    c_rectangular : Np.rectangular a;
    c_never_empty : us ≠ []
  }.

(** The rows left when the entries labelled [route_name] go, and the
    labels left. *)
Definition rows_without (route_name : string) (rs : list string) (a : Np.ndarray2) : Np.ndarray2 :=
  {| Np.rows := map snd (List.filter (λ p : string * Np.ndarray1, negb (String.eqb (fst p) route_name))
                           (combine rs (Np.rows a)));
     Np.shape1 := Np.shape1 a |}.

Definition routes_without (route_name : string) (rs : list string) : list string :=
  List.filter (λ route, negb (String.eqb route route_name)) rs.

(** A call keeps the lists of pairs: each one that existed before is there,
    unchanged, after. *)
Definition keeps_pairs (w w' : world) : Prop :=
  ∀ l ps, objects w !! l = Some (PairList ps) → objects w' !! l = Some (PairList ps).

Definition pairs_kept {A} (m : py A) : Prop := ∀ w, keeps_pairs w (fst (m w)).

(** The vector fits the storage: any vector fits unset storage, later ones
    need the dimension of the array. *)
Definition dimension_fits (w : world) (vector : Np.ndarray1) : Prop :=
  match index (self w) with
  | None => True
  | Some a => length vector = Np.shape1 a
  end.

Definition is_add (c : call) : bool :=
  match c with CallAdd _ _ _ => true | _ => false end.

Definition is_delete (c : call) : bool :=
  match c with CallDelete _ => true | _ => false end.

(** The entries a call sequence asked to add, in call order. *)
Definition added (cs : list call) : list (string * string * Np.ndarray1) :=
  omap (λ c, match c with
             | CallAdd route utterance vector => Some (route, utterance, vector)
             | _ => None
             end) cs.

(** Every vector a call sequence adds has [d] components. *)
Definition adds_dimension (d : nat) (cs : list call) : Prop :=
  Forall (λ e : string * string * Np.ndarray1, length (snd e) = d) (added cs).

(** The worlds a program can bring a new [LocalIndex()] to. *)
Definition reachable (w : world) : Prop := ∃ cs, w = run cs fresh.

(** The number of stored entries, as [describe] counts them. *)
Definition entries (w : world) : nat := length (stored_vectors w).

(** Populated: at least one entry is stored. *)
Definition populated (w : world) : Prop := reachable w ∧ 0 < entries w.

Definition not_populated (o : outcome answer) : Prop :=
  o = Raise (ValueError "Index is not populated.")
  ∨ o = Raise (ValueError "Routes are not populated.").

Definition descending (scores : list Q) : Prop :=
  StronglySorted (λ x y, (y <= x)%Q) scores.

(** [scores] and [labels] are the [top_k] best of the entries [vs], [rs]
    for a query vector: they come from [min top_k (length vs)] distinct
    positions, [scores !! j] is the similarity of the vector at the [j]-th
    position and [labels !! j] the label stored there, and no entry left
    out scores higher than one that was selected. *)
Definition best_entries (query_vector : Np.ndarray1) (top_k : nat)
    (vs : list Np.ndarray1) (rs : list string)
    (scores : list Q) (labels : list string) : Prop :=
  ∃ positions : list nat,
    length positions = min top_k (length vs)
    ∧ length scores = length positions
    ∧ length labels = length positions
    ∧ NoDup positions
    ∧ (∀ j i, positions !! j = Some i →
         ∃ v r, vs !! i = Some v ∧ rs !! i = Some r
                ∧ scores !! j = Some (similarity query_vector v)
                ∧ labels !! j = Some r)
    ∧ (∀ i v s, vs !! i = Some v → i ∉ positions → s ∈ scores →
         (similarity query_vector v <= s)%Q).

End Index.

(** ** The contents of a consistent object, call by call *)

(** What a consistent object holds: the array, the labels the routes list
    holds and the texts the utterances list holds. *)
Record contents : Type := mkContents {
  held_array : Np.ndarray2;
  held_routes : list string;
  held_utterances : list string
}.

Definition holds (w : world) (s : contents) : Prop :=
  consistent w (held_array s) (held_routes s) (held_utterances s).

(** The contents after a call, as the lemmas on the methods give them:
    [add] appends when [np.vstack] accepts the vector and changes nothing
    when it raises; [delete] drops the matching rows and labels and raises
    before it reaches the utterances; the three readers change nothing. *)
Definition step_contents (c : call) (s : contents) : contents :=
  match c with
  | CallAdd route utterance vector =>
      if length vector =? Np.shape1 (held_array s)
      then {| held_array := {| Np.rows := Np.rows (held_array s) ++ [vector];
                               Np.shape1 := Np.shape1 (held_array s) |};
              held_routes := held_routes s ++ [route];
              held_utterances := held_utterances s ++ [utterance] |}
      else s
  | CallDelete route_name =>
      {| held_array := rows_without route_name (held_routes s) (held_array s);
         held_routes := routes_without route_name (held_routes s);
         held_utterances := held_utterances s |}
  | _ => s
  end.

Definition contents_after (cs : list call) (s : contents) : contents :=
  foldl (λ s c, step_contents c s) s cs.

(** The stored entries as (label, vector) pairs. *)
Definition labelled (s : contents) : list (string * Np.ndarray1) :=
  combine (held_routes s) (Np.rows (held_array s)).

Definition other_label (route_name : string) (p : string * Np.ndarray1) : bool :=
  negb (String.eqb (fst p) route_name).

(** A call keeps the objects: each one that existed before is there,
    unchanged, after. *)
Definition keeps_objects (w w' : world) : Prop :=
  ∀ l o, objects w !! l = Some o → objects w' !! l = Some o.

Definition objects_kept {A} (m : py A) : Prop := ∀ w, keeps_objects w (fst (m w)).

(** A computation that raises no [ValueError]. *)
Definition no_value_error {A} (m : py A) : Prop :=
  ∀ w msg, snd (m w) ≠ Raise (ValueError msg).

(** The list at [l] is out of the object's reach: it exists and neither
    attribute refers to it. *)
Definition detached (w : world) (l : loc) (xs : list string) : Prop :=
  objects w !! l = Some (StrList xs)
  ∧ routes (self w) ≠ Some l
  ∧ utterances (self w) ≠ Some l.

(** * Properties *)

(** ** Lists: positions and labels *)

Section Positions.

Context {A : Type}.

Lemma length_enumerate (l : list A) : length (Np.enumerate l) = length l.
Proof.
  unfold Np.enumerate. rewrite length_combine, length_seq. lia.
Qed.

(** The positions [enumerate] hands out from [k] on are at least [k]. *)
Lemma positions_from (p : nat * A → bool) (k : nat) (l : list A) :
  Forall (λ i, k ≤ i) (map fst (List.filter p (combine (seq k (length l)) l))).
Proof.
  apply List.Forall_forall. intros i Hi.
  apply in_map_iff in Hi as [[j x] [<- Hin]].
  apply filter_In in Hin as [Hin _].
  apply in_combine_l, in_seq in Hin. simpl. lia.
Qed.

Lemma existsb_eqb_below (k : nat) (obj : list nat) :
  Forall (λ i, S k ≤ i) obj → existsb (Nat.eqb k) obj = false.
Proof.
  induction 1 as [|i obj Hi _ IH]; simpl; [done|].
  rewrite IH, orb_false_r. apply Nat.eqb_neq. lia.
Qed.

(** A listed position below every row of [rows] does not change which
    rows are kept. *)
Lemma filter_keep_row_skip (k n : nat) (obj : list nat) (rows : list Np.ndarray1) :
  List.filter (Np.keep_row (k :: obj)) (combine (seq (S k) n) rows)
  = List.filter (Np.keep_row obj) (combine (seq (S k) n) rows).
Proof.
  apply filter_ext_in. intros [i v] Hin.
  apply in_combine_l, in_seq in Hin.
  unfold Np.keep_row. simpl.
  replace (i =? k) with false; [done|].
  symmetry. apply Nat.eqb_neq. lia.
Qed.

End Positions.

(** Deleting by position the rows whose label matches is deleting by label:
    lines 85 and 86 of the source against line 87. *)
Lemma delete_positions_by_label (route_name : string) (rs : list string)
    (rows : list Np.ndarray1) (k : nat) :
  length rs = length rows →
  map snd (List.filter
             (Np.keep_row
                (map fst (List.filter (λ ir : nat * string, String.eqb (snd ir) route_name)
                            (combine (seq k (length rs)) rs))))
             (combine (seq k (length rows)) rows))
  = map snd (List.filter (λ p : string * Np.ndarray1, negb (String.eqb (fst p) route_name))
               (combine rs rows)).
Proof.
  revert rows k.
  induction rs as [|r rs IH]; intros [|v rows] k Hlen; simpl in Hlen; try done.
  injection Hlen as Hlen.
  cbn [length seq combine List.filter snd fst].
  destruct (String.eqb r route_name) eqn:Hr; cbn [map fst negb].
  - rewrite filter_keep_row_skip.
    unfold Np.keep_row at 1. cbn [fst existsb].
    rewrite Nat.eqb_refl. cbn [orb negb]. apply IH, Hlen.
  - unfold Np.keep_row at 1. cbn [fst].
    rewrite existsb_eqb_below by apply positions_from.
    cbn [negb map snd]. f_equal. apply IH, Hlen.
Qed.

Lemma length_filter_combine_fst {A B} (p : A → bool) (l : list A) (l' : list B) :
  length l = length l' →
  length (List.filter (λ x : A * B, p (fst x)) (combine l l')) = length (List.filter p l).
Proof.
  revert l'. induction l as [|x l IH]; intros [|y l'] Hlen; simpl in *; try done.
  injection Hlen as Hlen. destruct (p x); simpl; rewrite IH; done.
Qed.

(** ** The methods on a consistent object *)

Ltac py_unfold :=
  unfold add, get_routes, describe, delete, get_index, get_routes_attr,
    get_utterances_attr, set_index, set_routes, set_utterances, new_object,
    iterate, append, subscript, raise, np, read_unbound_name,
    mbind, py_bind, mret, py_ret;
  cbn [objects self index routes utterances fst snd].

Lemma bind_run {A B} (m : py A) (f : A → py B) (w : world) :
  (m ≫= f) w
  = match m w with
    | (w', Return a) => f a w'
    | (w', Raise e) => (w', Raise e)
    end.
Proof. done. Qed.

Lemma strings_at_Some (h : heap) (attr : option loc) (xs : list string) :
  strings_at h attr = Some xs ↔ ∃ l, attr = Some l ∧ h !! l = Some (StrList xs).
Proof.
  unfold strings_at. split.
  - destruct attr as [l|]; simpl; [|done].
    destruct (h !! l) as [[ys|ps]|] eqn:Hl; intros [= <-]; eauto.
  - intros (l & -> & Hl). simpl. by rewrite Hl.
Qed.

(** An object allocated earlier is still there after an allocation. *)
Lemma strings_at_alloc (h : heap) (attr : option loc) (xs : list string) (extra : list pyobj) :
  strings_at h attr = Some xs → strings_at (h ++ extra) attr = Some xs.
Proof.
  rewrite !strings_at_Some. intros (l & -> & Hl).
  exists l. split; [done|]. by apply lookup_app_l_Some.
Qed.

Lemma consistent_shape (w : world) a rs us :
  consistent w a rs us →
  ∃ h lr lu,
    w = {| objects := h;
           self := {| index := Some a; routes := Some lr; utterances := Some lu |} |}
    ∧ h !! lr = Some (StrList rs) ∧ h !! lu = Some (StrList us) ∧ lr ≠ lu.
Proof.
  intros [Hi Hr Hu Hsep Hrows Hrect Hne].
  destruct w as [h [ix r u]]; simpl in *. subst ix.
  apply strings_at_Some in Hr as (lr & -> & Hlr).
  apply strings_at_Some in Hu as (lu & -> & Hlu).
  exists h, lr, lu. repeat split; try done. congruence.
Qed.

Lemma consistent_alloc (w w' : world) a rs us (extra : list pyobj) :
  consistent w a rs us →
  self w' = self w → objects w' = objects w ++ extra →
  consistent w' a rs us.
Proof.
  intros [Hi Hr Hu Hsep Hrows Hrect Hne] Hself Hobj.
  split; rewrite ?Hself, ?Hobj; try done; by apply strings_at_alloc.
Qed.

(** The first [add] of an object whose storage is unset. *)
Lemma add_first (w : world) route utterance vector :
  index (self w) = None →
  ∃ w', add route utterance vector w = (w', Return ())
        ∧ consistent w' (Np.reshape_1_m1 vector) [route] [utterance].
Proof.
  intros Hix. destruct w as [h [ix r u]]; simpl in Hix; subst ix.
  py_unfold. eexists. split; [done|].
  split; cbn [objects self index routes utterances]; try done.
  - apply strings_at_Some. eexists. split; [done|].
    rewrite lookup_app_l by (rewrite length_app; simpl; lia).
    by rewrite lookup_app_r, Nat.sub_diag.
  - apply strings_at_Some. eexists. split; [done|].
    by rewrite lookup_app_r, length_app, Nat.sub_diag by done.
  - rewrite length_app. simpl. intros [= H]. lia.
  - by repeat constructor.
Qed.

(** A later [add] of a vector of the stored dimension. *)
Lemma add_next (w : world) a rs us route utterance vector :
  consistent w a rs us → length vector = Np.shape1 a →
  ∃ w', add route utterance vector w = (w', Return ())
        ∧ consistent w' {| Np.rows := Np.rows a ++ [vector]; Np.shape1 := Np.shape1 a |}
            (rs ++ [route]) (us ++ [utterance])
        ∧ length (objects w') = length (objects w).
Proof.
  intros Hc Hlen. pose proof Hc as [_ _ _ _ Hrows Hrect Hne].
  apply consistent_shape in Hc as (h & lr & lu & -> & Hlr & Hlu & Hsep).
  py_unfold. unfold Np.vstack. rewrite Hlen, Nat.eqb_refl.
  cbn [objects self index routes utterances]. rewrite Hlr.
  cbn [objects self index routes utterances].
  rewrite list_lookup_insert_ne, Hlu by done.
  eexists. split; [done|].
  split; [split|]; cbn [objects self index routes utterances]; try done.
  - apply strings_at_Some. eexists. split; [done|].
    rewrite list_lookup_insert_ne by done.
    apply list_lookup_insert_eq. by eapply lookup_lt_Some.
  - apply strings_at_Some. eexists. split; [done|].
    apply list_lookup_insert_eq. rewrite length_insert. by eapply lookup_lt_Some.
  - congruence.
  - unfold Np.shape0 in *. simpl. rewrite !length_app, Hrows. done.
  - unfold Np.rectangular in *. simpl. apply Forall_app. split; [done|]. by constructor.
  - by destruct us.
  - by rewrite !length_insert.
Qed.

(** A later [add] of a vector of another dimension: [vstack] refuses it
    before anything is assigned. *)
Lemma add_mismatch (w : world) a route utterance vector :
  index (self w) = Some a → length vector ≠ Np.shape1 a →
  ∃ msg, add route utterance vector w = (w, Raise (ValueError msg)).
Proof.
  intros Hix Hlen. destruct w as [h [ix r u]]; simpl in Hix; subst ix.
  py_unfold. unfold Np.vstack.
  apply Nat.eqb_neq in Hlen. rewrite Hlen. eauto.
Qed.

Lemma get_routes_consistent (w : world) a rs us :
  consistent w a rs us →
  get_routes w
  = ({| objects := objects w ++ [PairList (combine rs us)]; self := self w |},
     Return (length (objects w))).
Proof.
  intros Hc. apply consistent_shape in Hc as (h & lr & lu & -> & Hlr & Hlu & Hsep).
  py_unfold. rewrite Hlr. cbn [objects self utterances]. by rewrite Hlu.
Qed.

Lemma get_routes_unset (w : world) :
  routes (self w) = None →
  get_routes w = (w, Raise (TypeError "'NoneType' object is not iterable")).
Proof.
  intros Hr. destruct w as [h [ix r u]]; simpl in Hr; subst r. done.
Qed.

Lemma describe_pure (w : world) :
  describe w
  = (w, Return {| type := "local";
                  dimensions := match index (self w) with Some a => Np.shape1 a | None => 0 end;
                  vectors := match index (self w) with Some a => Np.shape0 a | None => 0 end |}).
Proof. done. Qed.

Lemma np_delete_by_label (route_name : string) (rs : list string) (a : Np.ndarray2) :
  length rs = Np.shape0 a →
  Np.delete (Some a)
    (map fst (List.filter (λ ir : nat * string, String.eqb (snd ir) route_name) (Np.enumerate rs)))
  = Return (rows_without route_name rs a).
Proof.
  intros Hlen. unfold Np.delete.
  replace (forallb _ _) with true.
  - unfold rows_without, Np.enumerate. f_equal. f_equal.
    by apply delete_positions_by_label.
  - symmetry. apply forallb_forall. intros i Hi.
    apply in_map_iff in Hi as [[j x] [<- Hin]].
    apply filter_In in Hin as [Hin _].
    apply in_combine_l, in_seq in Hin. simpl.
    apply Nat.ltb_lt. lia.
Qed.

(** A comprehension whose condition raises: nothing is evaluated on an empty
    list, the exception leaves at the first item otherwise. *)
Lemma comprehension_if_raises {A} (cond : A → py bool) (e : exn) (l : list A) (w : world) :
  (∀ x w, cond x w = (w, Raise e)) →
  comprehension_if cond l w
  = match l with
    | [] => (w, Return [])
    | _ :: _ => (w, Raise e)
    end.
Proof.
  intros Hcond. destruct l as [|x l]; [done|].
  simpl. unfold mbind, py_bind. by rewrite Hcond.
Qed.

(** [delete] on a consistent object: the array and the routes lose the
    matching entries, then line 88 raises and the utterances stay. *)
Lemma delete_consistent (w : world) a rs us route_name :
  consistent w a rs us →
  ∃ w', delete route_name w = (w', Raise (NameError "i"))
        ∧ consistent w' (rows_without route_name rs a) (routes_without route_name rs) us
        ∧ utterances (self w') = utterances (self w)
        ∧ objects w' = objects w ++ [StrList (routes_without route_name rs)].
Proof.
  intros Hc. pose proof Hc as [_ _ _ _ Hrows Hrect Hne].
  apply consistent_shape in Hc as (h & lr & lu & -> & Hlr & Hlu & Hsep).
  unfold delete, get_routes_attr, mbind, py_bind at 1 2.
  cbn [objects self index routes utterances fst snd].
  unfold iterate at 1. cbn [objects]. rewrite Hlr.
  unfold get_index, py_bind at 1 2. cbn [objects self index].
  unfold np at 1. rewrite np_delete_by_label by done.
  unfold py_bind at 1 2 3 4 5 6 7 8, set_index, iterate at 1, new_object at 1, set_routes.
  cbn [objects self index routes utterances fst snd]. rewrite Hlr.
  cbn [objects self index routes utterances fst snd].
  unfold get_utterances_attr, iterate. cbn [objects self index routes utterances fst snd].
  rewrite (lookup_app_l_Some _ _ _ _ Hlu).
  rewrite (comprehension_if_raises _ (NameError "i")) by done.
  destruct us as [|u0 us]; [done|].
  eexists. split; [done|].
  split; [split|]; cbn [objects self index routes utterances]; try done.
  - apply strings_at_Some. eexists. split; [done|].
    by rewrite lookup_app_r, Nat.sub_diag.
  - apply strings_at_Some. eexists. split; [done|]. by apply lookup_app_l_Some.
  - intros [= <-]. apply lookup_lt_Some in Hlu. lia.
  - unfold Np.shape0, rows_without, routes_without. simpl.
    rewrite length_map. apply eq_sym, length_filter_combine_fst with (p := λ r, negb (String.eqb r route_name)).
    done.
  - unfold Np.rectangular, rows_without in *. simpl.
    apply List.Forall_forall. intros v Hv.
    apply in_map_iff in Hv as [[r v'] [<- Hin]].
    apply filter_In in Hin as [Hin _]. apply in_combine_r in Hin.
    simpl. by eapply (proj1 (List.Forall_forall _ _)) in Hrect.
Qed.

Lemma delete_unset (w : world) route_name :
  routes (self w) = None →
  delete route_name w = (w, Raise (ValueError "Routes are not populated.")).
Proof.
  intros Hr. destruct w as [h [ix r u]]; simpl in Hr; subst r. done.
Qed.

(** ** Ranking: [top_scores] *)

Module Ranking.

Lemma insert_desc_perm (x : nat * Q) (l : list (nat * Q)) :
  Permutation (Linear.insert_desc x l) (x :: l).
Proof.
  induction l as [|y l IH]; simpl; [done|].
  destruct (Qle_bool (snd y) (snd x)); [done|].
  rewrite IH. apply perm_swap.
Qed.

Lemma sort_desc_perm (l : list (nat * Q)) : Permutation (Linear.sort_desc l) l.
Proof.
  induction l as [|x l IH]; simpl; [done|].
  rewrite insert_desc_perm. by constructor.
Qed.

Lemma insert_desc_sorted (x : nat * Q) (l : list (nat * Q)) :
  StronglySorted Linear.outranks l → StronglySorted Linear.outranks (Linear.insert_desc x l).
Proof.
  induction 1 as [|y l Hl IH Hy]; simpl.
  - repeat constructor.
  - destruct (Qle_bool (snd y) (snd x)) eqn:Hle.
    + apply Qle_bool_iff in Hle.
      constructor; [by constructor|].
      constructor; [done|].
      eapply Forall_impl; [exact Hy|].
      intros z Hz. unfold Linear.outranks in *. by eapply Qle_trans.
    + constructor; [done|].
      eapply Permutation_Forall; [symmetry; apply insert_desc_perm|].
      constructor; [|done].
      unfold Linear.outranks. apply Qlt_le_weak, Qnot_le_lt.
      intros Hle'. apply Qle_bool_iff in Hle'. congruence.
Qed.

Lemma sort_desc_sorted (l : list (nat * Q)) : StronglySorted Linear.outranks (Linear.sort_desc l).
Proof.
  induction l as [|x l IH]; simpl; [constructor|].
  by apply insert_desc_sorted.
Qed.

(** In a sorted list, what a prefix holds Linear.outranks what it leaves. *)
Lemma sorted_take_drop (l : list (nat * Q)) (k : nat) (p q : nat * Q) :
  StronglySorted Linear.outranks l → p ∈ take k l → q ∈ drop k l → Linear.outranks p q.
Proof.
  intros Hl. revert k.
  induction Hl as [|y l Hl IH Hy]; intros [|k]; simpl;
    try (intros H; by apply elem_of_nil in H).
  intros Hp Hq. apply elem_of_cons in Hp as [->|Hp].
  - eapply (proj1 (Forall_forall _ _)); [exact Hy|].
    eapply subseteq_drop, Hq.
  - by eapply IH.
Qed.

Lemma sorted_map_snd (l : list (nat * Q)) :
  StronglySorted Linear.outranks l → StronglySorted (λ x y, (y <= x)%Q) (map snd l).
Proof.
  induction 1 as [|y l Hl IH Hy]; simpl; constructor; [done|].
  apply Forall_fmap. exact Hy.
Qed.

Lemma sorted_take (l : list (nat * Q)) (k : nat) :
  StronglySorted Linear.outranks l → StronglySorted Linear.outranks (take k l).
Proof.
  intros Hl. revert k.
  induction Hl as [|y l Hl IH Hy]; intros [|k]; simpl; try constructor; [done|].
  apply Forall_forall. intros z Hz.
  eapply (proj1 (Forall_forall _ _)); [exact Hy|].
  apply elem_of_take in Hz as (i & Hi & _). by eapply list_elem_of_lookup_2.
Qed.

(** [enumerate] pairs every item with its position. *)
Lemma elem_of_enumerate_from {A} (l : list A) (k i : nat) (x : A) :
  (i, x) ∈ combine (seq k (length l)) l ↔ k ≤ i ∧ l !! (i - k) = Some x.
Proof.
  revert k. induction l as [|y l IH]; intros k; simpl.
  - split; [intros H; by apply elem_of_nil in H|]. by intros [_ ?].
  - rewrite elem_of_cons, IH. split.
    + intros [[= -> ->]|[Hk Hl]].
      * rewrite Nat.sub_diag. done.
      * split; [lia|]. by replace (i - k) with (S (i - S k)) by lia.
    + intros [Hk Hl]. destruct (decide (i = k)) as [->|Hne].
      * rewrite Nat.sub_diag in Hl. simpl in Hl. left. congruence.
      * right. split; [lia|].
        by replace (i - k) with (S (i - S k)) in Hl by lia.
Qed.

Lemma elem_of_enumerate {A} (l : list A) (i : nat) (x : A) :
  (i, x) ∈ Np.enumerate l ↔ l !! i = Some x.
Proof.
  unfold Np.enumerate. rewrite elem_of_enumerate_from, Nat.sub_0_r.
  split; [by intros [_ ?]|]. split; [lia|done].
Qed.

Lemma enumerate_positions {A} (l : list A) : map fst (Np.enumerate l) = seq 0 (length l).
Proof.
  unfold Np.enumerate. generalize 0.
  induction l as [|y l IH]; intros k; simpl; [done|]. by rewrite IH.
Qed.

End Ranking.

(** What the modelled [top_scores] returns. *)
Lemma top_scores_spec (sims : list Q) (top_k : nat) (scores : list Q) (positions : list nat) :
  Linear.top_scores sims top_k = (scores, positions) →
  length positions = min top_k (length sims)
  ∧ length scores = length positions
  ∧ NoDup positions
  ∧ descending scores
  ∧ (∀ j i, positions !! j = Some i → ∃ s, sims !! i = Some s ∧ scores !! j = Some s)
  ∧ (∀ i s s', sims !! i = Some s → i ∉ positions → s' ∈ scores → (s <= s')%Q).
Proof.
  unfold Linear.top_scores. intros [= <- <-].
  set (sorted := Linear.sort_desc (Np.enumerate sims)).
  assert (Hperm : Permutation sorted (Np.enumerate sims)) by apply Ranking.sort_desc_perm.
  assert (Hsorted : StronglySorted Linear.outranks sorted) by apply Ranking.sort_desc_sorted.
  change (map snd (take top_k sorted)) with (snd <$> take top_k sorted).
  change (map fst (take top_k sorted)) with (fst <$> take top_k sorted).
  repeat split.
  - rewrite length_fmap, length_take, (Permutation_length Hperm), length_enumerate. done.
  - by rewrite !length_fmap.
  - rewrite fmap_take. eapply sublist_NoDup; [|apply sublist_take].
    change (NoDup (map fst sorted)).
    rewrite (Permutation_map fst Hperm), Ranking.enumerate_positions.
    apply NoDup_seq.
  - by apply Ranking.sorted_map_snd, Ranking.sorted_take.
  - intros j i Hj. rewrite list_lookup_fmap in Hj.
    destruct (take top_k sorted !! j) as [[i' s]|] eqn:Hj'; simplify_eq/=.
    exists s. split.
    + apply Ranking.elem_of_enumerate. rewrite <- Hperm.
      eapply subseteq_take, list_elem_of_lookup_2, Hj'.
    + by rewrite list_lookup_fmap, Hj'.
  - intros i s s' Hi Hout Hs'.
    apply list_elem_of_fmap in Hs' as (p & -> & Hp).
    change (Linear.outranks p (i, s)).
    eapply Ranking.sorted_take_drop; [exact Hsorted|exact Hp|].
    apply Ranking.elem_of_enumerate in Hi. rewrite <- Hperm in Hi.
    rewrite <- (take_drop top_k sorted) in Hi.
    apply elem_of_app in Hi as [Hi|Hi]; [|done].
    destruct Hout. apply list_elem_of_fmap. by exists (i, s).
Qed.

(** ** [query] *)

Section QueryFacts.

Variable similarity : Np.ndarray1 → Np.ndarray1 → Q.

(** [self.routes[i]] changes nothing and allocates nothing. *)
Lemma read_label_frame (i : nat) (w : world) :
  fst ((r ← get_routes_attr; subscript r i) w) = w.
Proof.
  unfold mbind, py_bind, get_routes_attr, subscript.
  destruct (routes (self w)) as [l|]; [|done].
  destruct (objects w !! l) as [[xs|ps]|]; try done.
  by destruct (xs !! i).
Qed.

Lemma read_label_run (i : nat) (rs : list string) (x : string) (w : world) :
  strings_at (objects w) (routes (self w)) = Some rs → rs !! i = Some x →
  (r ← get_routes_attr; subscript r i) w = (w, Return x).
Proof.
  intros Hrs Hx. apply strings_at_Some in Hrs as (l & Hr & Hl).
  unfold mbind, py_bind, get_routes_attr, subscript. by rewrite Hr, Hl, Hx.
Qed.

Lemma comprehension_subscript_frame (indices : list nat) (w : world) :
  fst (comprehension (λ i, r ← get_routes_attr; subscript r i) indices w) = w.
Proof.
  induction indices as [|i indices IH]; [done|].
  cbn [comprehension]. rewrite bind_run.
  pose proof (read_label_frame i w) as Hi.
  destruct ((r ← get_routes_attr; subscript r i) w) as [w' [x|e]];
    simpl in Hi; subst w'; [|done].
  rewrite bind_run.
  destruct (comprehension _ indices w) as [w' [ys|e]]; simpl in IH; by subst w'.
Qed.

Lemma comprehension_subscript (indices : list nat) (rs : list string) (w : world) :
  strings_at (objects w) (routes (self w)) = Some rs →
  Forall (λ i, i < length rs) indices →
  ∃ labels,
    comprehension (λ i, r ← get_routes_attr; subscript r i) indices w = (w, Return labels)
    ∧ Forall2 (λ i x, rs !! i = Some x) indices labels.
Proof.
  intros Hrs.
  induction 1 as [|i indices Hi _ (labels & IH & Hlabels)].
  - by exists [].
  - apply lookup_lt_is_Some in Hi as [x Hx].
    exists (x :: labels). split; [|by constructor].
    cbn [comprehension].
    by rewrite bind_run, (read_label_run i rs x), bind_run, IH.
Qed.

(** [query], call by call. *)
Lemma query_run (query_vector : Np.ndarray1) (top_k : nat) (w : world) :
  query similarity query_vector top_k w
  = match index (self w) with
    | None => (w, Raise (ValueError "Index is not populated."))
    | Some a =>
        let '(scores, indices) :=
          Linear.top_scores (Linear.similarity_matrix similarity query_vector a) top_k in
        match comprehension (λ i, r ← get_routes_attr; subscript r i) indices w with
        | (w', Return labels) =>
            ({| objects := objects w' ++ [StrList labels]; self := self w' |},
             Return (scores, length (objects w')))
        | (w', Raise e) => (w', Raise e)
        end
    end.
Proof.
  unfold query. rewrite bind_run. unfold get_index.
  destruct (index (self w)) as [a|]; [|done].
  destruct (Linear.top_scores _ _) as [scores indices].
  rewrite bind_run.
  by destruct (comprehension _ indices w) as [w' [labels|e]].
Qed.

(** [query] assigns no attribute and writes into no object: it can only
    add the list it returns. *)
Lemma query_frame (query_vector : Np.ndarray1) (top_k : nat) (w : world) :
  self (fst (query similarity query_vector top_k w)) = self w
  ∧ ∃ extra, objects (fst (query similarity query_vector top_k w)) = objects w ++ extra.
Proof.
  rewrite query_run.
  destruct (index (self w)) as [a|]; [|split; [done|exists []; by rewrite app_nil_r]].
  destruct (Linear.top_scores _ _) as [scores indices].
  pose proof (comprehension_subscript_frame indices w) as Hframe.
  destruct (comprehension _ indices w) as [w' [labels|e]]; simpl in Hframe; subst w'; simpl.
  - split; [done|]. by eexists.
  - split; [done|]. exists []. by rewrite app_nil_r.
Qed.

Lemma query_unset (query_vector : Np.ndarray1) (top_k : nat) (w : world) :
  index (self w) = None →
  query similarity query_vector top_k w = (w, Raise (ValueError "Index is not populated.")).
Proof. intros Hix. by rewrite query_run, Hix. Qed.

(** [query] on a consistent object returns the best entries. *)
Lemma query_consistent (query_vector : Np.ndarray1) (top_k : nat) (w : world) a rs us :
  consistent w a rs us →
  ∃ scores labels,
    query similarity query_vector top_k w
    = ({| objects := objects w ++ [StrList labels]; self := self w |},
       Return (scores, length (objects w)))
    ∧ descending scores
    ∧ best_entries similarity query_vector top_k (Np.rows a) rs scores labels.
Proof.
  intros Hc. pose proof Hc as [Hix Hrs _ _ Hrows _ _].
  rewrite query_run, Hix.
  destruct (Linear.top_scores _ _) as [scores positions] eqn:Htop.
  apply top_scores_spec in Htop as (Hlen & Hlen' & Hnodup & Hdesc & Hlook & Hbest).
  unfold Linear.similarity_matrix in *.
  change (map (similarity query_vector) (Np.rows a))
    with (similarity query_vector <$> Np.rows a) in *.
  rewrite length_fmap in Hlen.
  destruct (comprehension_subscript positions rs w Hrs) as (labels & Hrun & Hlabels).
  { apply Forall_forall. intros i Hi.
    apply list_elem_of_lookup in Hi as [j Hj].
    destruct (Hlook j i Hj) as (s & Hs & _).
    apply lookup_lt_Some in Hs. rewrite length_fmap in Hs.
    unfold Np.shape0 in Hrows. lia. }
  exists scores, labels. rewrite Hrun.
  split; [done|]. split; [done|].
  exists positions. repeat split; try done.
  - symmetry. by eapply Forall2_length.
  - intros j i Hj.
    destruct (Hlook j i Hj) as (s & Hs & Hscore).
    apply list_lookup_fmap_Some in Hs as (v & -> & Hv).
    destruct (Forall2_lookup_l _ _ _ _ _ Hlabels Hj) as (r & Hr & Hri).
    by exists v, r.
  - intros i v s Hv Hout Hs.
    eapply Hbest; [|done..].
    by rewrite list_lookup_fmap, Hv.
Qed.

End QueryFacts.

(** ** Call sequences *)

Section Reachability.

Variable similarity : Np.ndarray1 → Np.ndarray1 → Q.

Lemma after_add (w : world) route utterance vector :
  after similarity (CallAdd route utterance vector) w = fst (add route utterance vector w).
Proof.
  unfold after. cbn [run_call]. rewrite bind_run.
  by destruct (add _ _ _ w) as [w' [[]|e]].
Qed.

Lemma after_get_routes (w : world) : after similarity CallGetRoutes w = fst (get_routes w).
Proof.
  unfold after. cbn [run_call]. rewrite bind_run.
  by destruct (get_routes w) as [w' [l|e]].
Qed.

Lemma after_describe (w : world) : after similarity CallDescribe w = w.
Proof. done. Qed.

Lemma after_query (w : world) query_vector top_k :
  after similarity (CallQuery query_vector top_k) w = fst (query similarity query_vector top_k w).
Proof.
  unfold after. cbn [run_call]. rewrite bind_run.
  by destruct (query _ _ _ w) as [w' [[scores l]|e]].
Qed.

Lemma after_delete (w : world) route_name :
  after similarity (CallDelete route_name) w = fst (delete route_name w).
Proof.
  unfold after. cbn [run_call]. rewrite bind_run.
  by destruct (delete _ w) as [w' [[]|e]].
Qed.

Lemma run_snoc (cs : list call) (c : call) (w : world) :
  run similarity (cs ++ [c]) w = after similarity c (run similarity cs w).
Proof. unfold run. by rewrite foldl_app. Qed.

(** Before the first [add], only [add] changes anything. *)
Lemma after_unset (c : call) (w : world) :
  self w = self fresh → is_add c = false → after similarity c w = w.
Proof.
  intros Hself Hc. destruct c as [r u v| | |q k|r]; try done.
  - rewrite after_get_routes, get_routes_unset; [done|by rewrite Hself].
  - rewrite after_query, query_unset; [done|by rewrite Hself].
  - rewrite after_delete, delete_unset; [done|by rewrite Hself].
Qed.

(** Once storage exists, every call keeps the object consistent. *)
Lemma after_consistent (c : call) (w : world) a rs us :
  consistent w a rs us → ∃ a' rs' us', consistent (after similarity c w) a' rs' us'.
Proof.
  intros Hc. destruct c as [r u v| | |q k|r].
  - rewrite after_add.
    destruct (decide (length v = Np.shape1 a)) as [Hlen|Hlen].
    + destruct (add_next w a rs us r u v Hc Hlen) as (w' & -> & Hc' & _). eauto.
    + destruct (add_mismatch w a r u v (c_index _ _ _ _ Hc) Hlen) as [msg ->]. eauto.
  - rewrite after_get_routes, (get_routes_consistent w a rs us Hc).
    exists a, rs, us. by eapply consistent_alloc.
  - rewrite after_describe. eauto.
  - rewrite after_query.
    destruct (query_consistent similarity q k w a rs us Hc) as (scores & labels & -> & _).
    exists a, rs, us. by eapply consistent_alloc.
  - rewrite after_delete.
    destruct (delete_consistent w a rs us r Hc) as (w' & -> & Hc' & _). eauto.
Qed.

(** A reachable object is either untouched, when no [add] was called, or
    consistent. *)
Lemma reachable_cases (cs : list call) :
  (existsb is_add cs = false ∧ run similarity cs fresh = fresh)
  ∨ (existsb is_add cs = true ∧ ∃ a rs us, consistent (run similarity cs fresh) a rs us).
Proof.
  induction cs as [|c cs IH] using rev_ind; [by left|].
  rewrite run_snoc, existsb_app. simpl. rewrite orb_false_r.
  destruct IH as [[-> Hrun]|[-> (a & rs & us & Hc)]]; simpl.
  - rewrite Hrun. destruct (is_add c) eqn:Hadd.
    + right. split; [done|].
      destruct c as [r u v| | |q k|r]; try done.
      rewrite after_add.
      destruct (add_first fresh r u v eq_refl) as (w' & -> & Hc). eauto.
    + left. split; [done|]. by apply after_unset.
  - right. split; [done|]. by eapply after_consistent.
Qed.

Lemma reachable_entries (w : world) :
  reachable similarity w → 0 < entries w → ∃ a rs us, consistent w a rs us.
Proof.
  intros [cs ->] Hn.
  destruct (reachable_cases cs) as [[_ Hrun]|[_ Hc]]; [|done].
  rewrite Hrun in Hn. unfold entries, stored_vectors in Hn. simpl in Hn. lia.
Qed.

End Reachability.

(** ** Sequences without [delete] *)

Section AddOnly.

Variable similarity : Np.ndarray1 → Np.ndarray1 → Q.

Lemma added_snoc (cs : list call) (c : call) : added (cs ++ [c]) = added cs ++ added [c].
Proof. unfold added. by rewrite omap_app. Qed.

(** Without [delete], the object holds exactly what was added, in order. *)
Lemma adds_only_state (cs : list call) (d : nat) :
  existsb is_delete cs = false → adds_dimension d cs →
  (added cs = [] ∧ run similarity cs fresh = fresh)
  ∨ (added cs ≠ []
     ∧ consistent (run similarity cs fresh)
         {| Np.rows := map snd (added cs); Np.shape1 := d |}
         (map (λ e, fst (fst e)) (added cs))
         (map (λ e, snd (fst e)) (added cs))).
Proof.
  unfold adds_dimension.
  induction cs as [|c cs IH] using rev_ind; [by left|].
  rewrite existsb_app, added_snoc, run_snoc, Forall_app. simpl. rewrite orb_false_r.
  intros [Hnd Hc]%orb_false_elim [Hdim Hdimc].
  destruct (IH Hnd Hdim) as [[Hadded Hrun]|[Hadded Hcons]]; clear IH.
  - rewrite Hadded, Hrun. simpl.
    destruct c as [r u v| | |q k|r]; try done; try (left; split; [done|by apply after_unset]).
    right. split; [done|]. rewrite after_add.
    destruct (add_first fresh r u v eq_refl) as (w' & -> & Hc').
    cbn in Hdimc. apply Forall_inv in Hdimc. simpl in Hdimc. subst d.
    exact Hc'.
  - right. split; [by destruct (added cs)|].
    destruct c as [r u v| | |q k|r]; try done; cbn [added omap]; rewrite ?app_nil_r.
    + cbn in Hdimc. apply Forall_inv in Hdimc. simpl in Hdimc.
      rewrite after_add.
      edestruct (add_next _ _ _ _ r u v Hcons) as (w' & -> & Hc' & _); [done|].
      simpl. by rewrite !map_app.
    + rewrite after_get_routes, (get_routes_consistent _ _ _ _ Hcons).
      by eapply consistent_alloc.
    + by rewrite after_describe.
    + rewrite after_query.
      destruct (query_consistent similarity q k _ _ _ _ Hcons) as (scores & labels & -> & _).
      by eapply consistent_alloc.
Qed.

End AddOnly.

(** ** Lists of pairs are never written

    No method writes into a list of pairs: [append] is only ever called on
    the two lists of strings, and every other list is built new. *)

Section Frames.

Variable similarity : Np.ndarray1 → Np.ndarray1 → Q.

Lemma keeps_pairs_refl (w : world) : keeps_pairs w w.
Proof. by intros l ps. Qed.

Lemma keeps_pairs_trans (w1 w2 w3 : world) :
  keeps_pairs w1 w2 → keeps_pairs w2 w3 → keeps_pairs w1 w3.
Proof. intros H12 H23 l ps Hl. by apply H23, H12. Qed.

Lemma pairs_kept_pure {A} (m : py A) : (∀ w, fst (m w) = w) → pairs_kept m.
Proof. intros Hm w. rewrite Hm. apply keeps_pairs_refl. Qed.

Lemma pairs_kept_bind {A B} (m : py A) (f : A → py B) :
  pairs_kept m → (∀ a, pairs_kept (f a)) → pairs_kept (m ≫= f).
Proof.
  intros Hm Hf w. rewrite bind_run. specialize (Hm w).
  destruct (m w) as [w' [a|e]]; simpl in Hm; [|done].
  eapply keeps_pairs_trans; [exact Hm|apply Hf].
Qed.

Lemma pairs_kept_ret {A} (a : A) : pairs_kept (mret a).
Proof. by apply pairs_kept_pure. Qed.

Lemma pairs_kept_raise {A} (e : exn) : pairs_kept (@raise A e).
Proof. by apply pairs_kept_pure. Qed.

Lemma pairs_kept_np {A} (r : outcome A) : pairs_kept (np r).
Proof. by apply pairs_kept_pure. Qed.

Lemma pairs_kept_get_index : pairs_kept get_index.
Proof. by apply pairs_kept_pure. Qed.

Lemma pairs_kept_get_routes_attr : pairs_kept get_routes_attr.
Proof. by apply pairs_kept_pure. Qed.

Lemma pairs_kept_get_utterances_attr : pairs_kept get_utterances_attr.
Proof. by apply pairs_kept_pure. Qed.

Lemma pairs_kept_set_index v : pairs_kept (set_index v).
Proof. by intros w l ps. Qed.

Lemma pairs_kept_set_routes v : pairs_kept (set_routes v).
Proof. by intros w l ps. Qed.

Lemma pairs_kept_set_utterances v : pairs_kept (set_utterances v).
Proof. by intros w l ps. Qed.

Lemma pairs_kept_new_object (o : pyobj) : pairs_kept (new_object o).
Proof. intros w l ps Hl. simpl. by apply lookup_app_l_Some. Qed.

Lemma pairs_kept_iterate attr : pairs_kept (iterate attr).
Proof.
  apply pairs_kept_pure. intros w. unfold iterate.
  destruct attr as [l|]; [|done]. by destruct (objects w !! l) as [[xs|ps]|].
Qed.

Lemma pairs_kept_subscript attr i : pairs_kept (subscript attr i).
Proof.
  apply pairs_kept_pure. intros w. unfold subscript.
  destruct attr as [l|]; [|done]. destruct (objects w !! l) as [[xs|ps]|]; try done.
  by destruct (xs !! i).
Qed.

(** The one write: it lands on a list of strings. *)
Lemma pairs_kept_append attr x : pairs_kept (append attr x).
Proof.
  intros w l ps Hl. unfold append.
  destruct attr as [l'|]; [|done].
  destruct (objects w !! l') as [[xs|ps']|] eqn:Hl'; try done.
  simpl. rewrite list_lookup_insert_ne; [done|]. intros ->. congruence.
Qed.

Lemma pairs_kept_comprehension {A B} (f : A → py B) (l : list A) :
  (∀ x, pairs_kept (f x)) → pairs_kept (comprehension f l).
Proof.
  intros Hf. induction l as [|x l IH]; simpl; [apply pairs_kept_ret|].
  apply pairs_kept_bind; [done|]. intros y.
  apply pairs_kept_bind; [done|]. intros ys. apply pairs_kept_ret.
Qed.

Lemma pairs_kept_comprehension_if {A} (cond : A → py bool) (l : list A) :
  (∀ x, pairs_kept (cond x)) → pairs_kept (comprehension_if cond l).
Proof.
  intros Hc. induction l as [|x l IH]; simpl; [apply pairs_kept_ret|].
  apply pairs_kept_bind; [done|]. intros b.
  apply pairs_kept_bind; [done|]. intros ys. apply pairs_kept_ret.
Qed.

Create HintDb frames.
#[local] Hint Resolve pairs_kept_ret pairs_kept_raise pairs_kept_np pairs_kept_get_index
  pairs_kept_get_routes_attr pairs_kept_get_utterances_attr pairs_kept_set_index
  pairs_kept_set_routes pairs_kept_set_utterances pairs_kept_new_object
  pairs_kept_iterate pairs_kept_subscript pairs_kept_append : frames.

Ltac frame_steps :=
  repeat (apply pairs_kept_bind; [auto with frames|intros]); auto with frames.

Lemma pairs_kept_add route utterance vector : pairs_kept (add route utterance vector).
Proof.
  unfold add. apply pairs_kept_bind; [auto with frames|].
  intros [a|]; frame_steps.
Qed.

Lemma pairs_kept_get_routes : pairs_kept get_routes.
Proof. unfold get_routes. frame_steps. Qed.

Lemma pairs_kept_describe : pairs_kept describe.
Proof. unfold describe. frame_steps. Qed.

Lemma pairs_kept_query query_vector top_k :
  pairs_kept (query similarity query_vector top_k).
Proof.
  unfold query. apply pairs_kept_bind; [auto with frames|].
  intros [a|]; [|auto with frames].
  destruct (Linear.top_scores _ _) as [scores indices].
  apply pairs_kept_bind; [|intros; frame_steps].
  apply pairs_kept_comprehension. intros i. frame_steps.
Qed.

Lemma pairs_kept_delete route_name : pairs_kept (delete route_name).
Proof.
  unfold delete. apply pairs_kept_bind; [auto with frames|].
  intros [l|]; [|auto with frames].
  do 10 (apply pairs_kept_bind; [auto with frames|intros]).
  apply pairs_kept_bind; [|intros; frame_steps].
  apply pairs_kept_comprehension_if. intros utterance.
  unfold read_unbound_name. frame_steps.
Qed.

Lemma keeps_pairs_after (c : call) (w : world) : keeps_pairs w (after similarity c w).
Proof.
  destruct c as [r u v| | |q k|r].
  - rewrite after_add. apply pairs_kept_add.
  - rewrite after_get_routes. apply pairs_kept_get_routes.
  - rewrite after_describe. apply keeps_pairs_refl.
  - rewrite after_query. apply pairs_kept_query.
  - rewrite after_delete. apply pairs_kept_delete.
Qed.

Lemma keeps_pairs_run (cs : list call) (w : world) : keeps_pairs w (run similarity cs w).
Proof.
  induction cs as [|c cs IH] using rev_ind; [apply keeps_pairs_refl|].
  rewrite run_snoc. eapply keeps_pairs_trans; [exact IH|apply keeps_pairs_after].
Qed.

End Frames.

Lemma routes_without_all (route_name : string) (rs : list string) :
  Forall (λ r, r = route_name) rs → routes_without route_name rs = [].
Proof.
  induction 1 as [|r rs -> _ IH]; simpl; [done|].
  by rewrite String.eqb_refl.
Qed.

(** * The claims of the specification *)

Section Claims.

Variable similarity : Np.ndarray1 → Np.ndarray1 → Q.

(** C6. After [add]-ing N vectors of dimension D to a new index, with no
    deletion, [describe()] returns type "local", dimensions D and vectors
    N; on an index nothing was added to (N = 0) it returns dimensions 0 and
    vectors 0; and [describe] leaves the index as it found it.  Other calls
    than [delete] may come between the [add]s. *)
Theorem C6_describe_counts (cs : list call) (d : nat) :
  existsb is_delete cs = false → adds_dimension d cs →
  let w := run similarity cs fresh in
  let n := length (added cs) in
  describe w
  = (w, Return {| type := "local";
                  dimensions := match n with 0 => 0 | S _ => d end;
                  vectors := n |}).
Proof.
  intros Hnd Hdim w n. subst w n. rewrite describe_pure.
  destruct (adds_only_state similarity cs d Hnd Hdim) as [[Hadded ->]|[Hadded Hc]].
  - by rewrite Hadded.
  - rewrite (c_index _ _ _ _ Hc). unfold Np.shape0. cbn [Np.rows Np.shape1].
    rewrite length_map. by destruct (added cs).
Qed.

(** C9. On an index no [add] was ever called on, whatever else was called,
    the routes and utterances attributes are still [None] and
    [get_routes()] raises (a [TypeError]: [zip] cannot iterate [None])
    instead of returning an empty sequence. *)
Theorem C9_get_routes_before_any_add (cs : list call) :
  existsb is_add cs = false →
  let w := run similarity cs fresh in
  routes (self w) = None ∧ utterances (self w) = None
  ∧ run_call similarity CallGetRoutes w
    = (w, Raise (TypeError "'NoneType' object is not iterable")).
Proof.
  intros Hadd w. subst w.
  destruct (reachable_cases similarity cs) as [[_ ->]|[Hadd' _]]; [done|congruence].
Qed.

(** C10. [query] is read-only.  Whether it returns or raises, the three
    attributes refer to what they referred to before and every object that
    existed before the call is unchanged; on every reachable index the
    stored vectors, routes and utterances are therefore the same before
    and after the call. *)
Theorem C10_query_read_only (w : world) (query_vector : Np.ndarray1) (top_k : nat) :
  let w' := fst (query similarity query_vector top_k w) in
  self w' = self w
  ∧ (∀ l o, objects w !! l = Some o → objects w' !! l = Some o)
  ∧ stored_vectors w' = stored_vectors w
  ∧ (reachable similarity w →
     stored_routes w' = stored_routes w ∧ stored_utterances w' = stored_utterances w).
Proof.
  intros w'. subst w'.
  destruct (query_frame similarity query_vector top_k w) as [Hself [extra Hobj]].
  split; [done|]. split; [|split].
  - intros l o Hl. rewrite Hobj. by apply lookup_app_l_Some.
  - unfold stored_vectors. by rewrite Hself.
  - intros [cs ->].
    destruct (reachable_cases similarity cs) as [[_ Hrun]|[_ (a & rs & us & Hc)]].
    + rewrite Hrun in *. by rewrite query_unset.
    + unfold stored_routes, stored_utterances. rewrite Hself, Hobj.
      rewrite (strings_at_alloc _ _ _ extra (c_routes _ _ _ _ Hc)).
      rewrite (strings_at_alloc _ _ _ extra (c_utterances _ _ _ _ Hc)).
      by rewrite (c_routes _ _ _ _ Hc), (c_utterances _ _ _ _ Hc).
Qed.

(** C3, amended.  [query] and [delete] raise their not-populated error
    exactly when no [add] was ever called on the index, and then leave the
    index untouched; they never raise it while at least one entry is
    stored.  (An index that deletions emptied is not in that case: its
    storage exists.) *)
Theorem C3_not_populated_iff_never_added (cs : list call)
    (query_vector : Np.ndarray1) (top_k : nat) (route_name : string) :
  let w := run similarity cs fresh in
  let asked := run_call similarity (CallQuery query_vector top_k) w in
  let deleted := run_call similarity (CallDelete route_name) w in
  (snd asked = Raise (ValueError "Index is not populated.") ↔ existsb is_add cs = false)
  ∧ (snd deleted = Raise (ValueError "Routes are not populated.") ↔ existsb is_add cs = false)
  ∧ (existsb is_add cs = false → fst asked = w ∧ fst deleted = w)
  ∧ (0 < entries w → ¬ not_populated (snd asked) ∧ ¬ not_populated (snd deleted)).
Proof.
  intros w asked deleted. subst w asked deleted.
  destruct (reachable_cases similarity cs) as [[Hadd ->]|[Hadd (a & rs & us & Hc)]].
  - rewrite Hadd. repeat split; try done.
    all: match goal with Hn : 0 < entries fresh |- _ => by apply Nat.lt_irrefl in Hn end.
  - rewrite Hadd.
    assert (Hq : ∃ w' scores l,
               run_call similarity (CallQuery query_vector top_k) (run similarity cs fresh)
               = (w', Return (AQuery scores l))).
    { cbn [run_call]. rewrite bind_run.
      destruct (query_consistent similarity query_vector top_k _ _ _ _ Hc)
        as (scores & labels & -> & _).
      by eexists _, _, _. }
    assert (Hd : ∃ w',
               run_call similarity (CallDelete route_name) (run similarity cs fresh)
               = (w', Raise (NameError "i"))).
    { cbn [run_call]. rewrite bind_run.
      destruct (delete_consistent _ _ _ _ route_name Hc) as (w' & -> & _).
      by eexists. }
    destruct Hq as (wq & scores & l & ->), Hd as (wd & ->). simpl.
    repeat split; try done.
    all: intros [?|?]; done.
Qed.

(** C8, amended.  If a [delete] removes the last remaining entries (every
    stored entry carries the deleted label), [describe()] afterwards
    reports vectors 0 and the dimensions it reported before: the
    dimension is not reset. *)
Theorem C8_describe_after_last_delete (cs : list call) (route_name : string)
    (d : description) :
  let w := run similarity cs fresh in
  snd (describe w) = Return d → 0 < vectors d →
  Forall (λ r, r = route_name) (stored_routes w) →
  snd (describe (after similarity (CallDelete route_name) w))
  = Return {| type := "local"; dimensions := dimensions d; vectors := 0 |}.
Proof.
  intros w. subst w. rewrite !describe_pure. cbn [snd]. intros [= <-] Hn Hall.
  cbn [vectors dimensions] in *.
  destruct (reachable_cases similarity cs) as [[_ Hrun]|[_ (a & rs & us & Hc)]].
  { rewrite Hrun in Hn. simpl in Hn. lia. }
  unfold stored_routes in Hall. rewrite (c_routes _ _ _ _ Hc) in Hall. simpl in Hall.
  rewrite after_delete.
  destruct (delete_consistent _ _ _ _ route_name Hc) as (w' & -> & Hc' & _).
  cbn [fst]. rewrite (c_index _ _ _ _ Hc), (c_index _ _ _ _ Hc').
  do 2 f_equal. rewrite <- (c_rows _ _ _ _ Hc'). by rewrite routes_without_all.
Qed.

(** C5.  On every populated index, [query(q, top_k)] returns scores and
    route labels of the [top_k] highest-similarity entries (of all entries
    when fewer are stored): the scores descend, [labels !! j] is the label
    of the entry whose similarity to [q] is [scores !! j], and no entry
    left out scores higher than a returned one.  In the scenario of the
    specification, where both greet vectors outrank the bye vector,
    [query([1,0], top_k=2)] returns the labels greet, greet with
    descending scores. *)
Theorem C5_query_top_k :
  (∀ (w : world) (query_vector : Np.ndarray1) (top_k : nat),
     populated similarity w →
     ∃ w' scores l labels,
       query similarity query_vector top_k w = (w', Return (scores, l))
       ∧ strings_at (objects w') (Some l) = Some labels
       ∧ descending scores
       ∧ best_entries similarity query_vector top_k
           (stored_vectors w) (stored_routes w) scores labels)
  ∧ (let q := [1; 0]%Q in
     let hello := [1; 0]%Q in
     let hi := [9 # 10; 1 # 10]%Q in
     let goodbye := [0; 1]%Q in
     (similarity q goodbye < similarity q hello)%Q →
     (similarity q goodbye < similarity q hi)%Q →
     let w := run similarity [CallAdd "greet" "hello" hello; CallAdd "greet" "hi" hi;
                              CallAdd "bye" "goodbye" goodbye] fresh in
     ∃ w' scores l,
       query similarity q 2 w = (w', Return (scores, l))
       ∧ strings_at (objects w') (Some l) = Some ["greet"; "greet"]
       ∧ descending scores).
Proof.
  split.
  - intros w q k [Hreach Hn].
    destruct (reachable_entries similarity w Hreach Hn) as (a & rs & us & Hc).
    destruct (query_consistent similarity q k w a rs us Hc)
      as (scores & labels & Hrun & Hdesc & Hbest).
    exists {| objects := objects w ++ [StrList labels]; self := self w |}, scores,
      (length (objects w)), labels.
    split; [done|]. split; [|split; [done|]].
    + apply strings_at_Some. exists (length (objects w)). split; [done|].
      cbn [objects]. by rewrite lookup_app_r, Nat.sub_diag.
    + unfold stored_vectors, stored_routes.
      by rewrite (c_index _ _ _ _ Hc), (c_routes _ _ _ _ Hc).
  - intros q hello hi goodbye Hhello Hhi w.
    rewrite query_run.
    change (index (self w))
      with (Some {| Np.rows := [hello; hi; goodbye]; Np.shape1 := 2 |}).
    unfold Linear.top_scores, Linear.similarity_matrix, Np.enumerate, Linear.sort_desc.
    cbn [Np.rows map length seq combine foldr Linear.insert_desc snd fst].
    rewrite (proj2 (Qle_bool_iff _ _) (Qlt_le_weak _ _ Hhi)).
    cbn [Linear.insert_desc snd].
    destruct (Qle_bool (similarity q hi) (similarity q hello)) eqn:Hle.
    + eexists _, _, _. split; [reflexivity|]. split; [reflexivity|].
      apply Qle_bool_iff in Hle. repeat constructor. exact Hle.
    + cbn [Linear.insert_desc snd].
      rewrite (proj2 (Qle_bool_iff _ _) (Qlt_le_weak _ _ Hhello)).
      eexists _, _, _. split; [reflexivity|]. split; [reflexivity|].
      repeat constructor. apply Qlt_le_weak, Qnot_le_lt.
      intros Hle'. apply Qle_bool_iff in Hle'. simpl in Hle'. congruence.
Qed.

End Claims.

(** ** The defect of line 88 at concrete inputs

    The last line of [delete] filters the utterances with a condition that
    reads the unbound name [i].  Once an utterance is stored the call raises
    [NameError] after the array and the routes were already replaced. *)

(** C1 (the code departs from the claim).  After [add("a", "x", [1])] and
    [delete("a")] the index holds no vector and no route but still one
    utterance: the three sequences are not aligned. *)
Theorem C1_delete_breaks_alignment :
  let w0 := run Linear.dot [CallAdd "a" "x" [1%Q]] fresh in
  let w := after Linear.dot (CallDelete "a") w0 in
  snd (run_call Linear.dot (CallDelete "a") w0) = Raise (NameError "i")
  ∧ length (stored_vectors w) = 0
  ∧ length (stored_routes w) = 0
  ∧ length (stored_utterances w) = 1.
Proof. by vm_compute. Qed.

(** C2 (the code departs from the claim).  After three [add]s with routes
    a, b, a, [delete("a")] raises; one vector and one route are left and
    [describe()] counts 1 vector, but all three utterances are still there. *)
Theorem C2_delete_keeps_utterances :
  let w0 := run Linear.dot [CallAdd "a" "u1" [1%Q]; CallAdd "b" "u2" [2%Q];
                            CallAdd "a" "u3" [3%Q]] fresh in
  let w := after Linear.dot (CallDelete "a") w0 in
  snd (run_call Linear.dot (CallDelete "a") w0) = Raise (NameError "i")
  ∧ stored_vectors w = [[2%Q]]
  ∧ stored_routes w = ["b"]
  ∧ stored_utterances w = ["u1"; "u2"; "u3"]
  ∧ snd (describe w) = Return {| type := "local"; dimensions := 1; vectors := 1 |}.
Proof. by vm_compute. Qed.

(** C4 (the code departs from the claim).  [delete] of a label no entry
    carries leaves the stored sequences as they were, but it raises. *)
Theorem C4_delete_absent_route_raises :
  let w0 := run Linear.dot [CallAdd "a" "x" [1%Q]] fresh in
  let w := after Linear.dot (CallDelete "nonexistent") w0 in
  snd (run_call Linear.dot (CallDelete "nonexistent") w0) = Raise (NameError "i")
  ∧ stored_vectors w = stored_vectors w0
  ∧ stored_routes w = stored_routes w0
  ∧ stored_utterances w = stored_utterances w0.
Proof. by vm_compute. Qed.

(** C7 (the code departs from the claim).  After [add("a", "x", [1])],
    [add("b", "y", [2])] and [delete("a")], [get_routes()] pairs the
    remaining route b with the utterance x of the deleted entry. *)
Theorem C7_get_routes_after_delete :
  let w0 := run Linear.dot [CallAdd "a" "x" [1%Q]; CallAdd "b" "y" [2%Q];
                            CallDelete "a"] fresh in
  ∃ w l, get_routes w0 = (w, Return l) ∧ pairs_at (objects w) l = Some [("b", "x")].
Proof. by eexists _, _. Qed.

(** ** Counterexamples to the claims as stated *)

(** C3 as stated fails: an index that a deletion emptied stores no entry,
    and neither [query] nor [delete] raises a not-populated error on it. *)
Lemma C3_emptied_index_raises_no_not_populated :
  entries (run Linear.dot [CallAdd "a" "x" [1%Q]; CallDelete "a"] fresh) = 0
  ∧ ¬ not_populated
        (snd (run_call Linear.dot (CallQuery [1%Q] 5)
                (run Linear.dot [CallAdd "a" "x" [1%Q]; CallDelete "a"] fresh)))
  ∧ ¬ not_populated
        (snd (run_call Linear.dot (CallDelete "a")
                (run Linear.dot [CallAdd "a" "x" [1%Q]; CallDelete "a"] fresh))).
Proof.
  split; [done|].
  split; intros [H|H]; vm_compute in H; discriminate.
Qed.

(** C8 as stated fails: after the only entry, of dimension 2, is deleted,
    [describe()] reports 0 vectors but still 2 dimensions, unlike an index
    nothing was added to. *)
Lemma C8_dimension_kept_after_last_delete :
  snd (describe (run Linear.dot [CallAdd "a" "x" [1%Q; 2%Q]; CallDelete "a"] fresh))
  = Return {| type := "local"; dimensions := 2; vectors := 0 |}
  ∧ snd (describe (run Linear.dot [CallAdd "a" "x" [1%Q; 2%Q]; CallDelete "a"] fresh))
    ≠ snd (describe fresh).
Proof. split; [done|]. vm_compute. discriminate. Qed.

(** ** The theorems at concrete inputs *)

Lemma C3_not_populated_iff_never_added_witness :
  0 < entries (run Linear.dot [CallAdd "a" "x" [1%Q]] fresh)
  ∧ ¬ not_populated
        (snd (run_call Linear.dot (CallQuery [1%Q] 5)
                (run Linear.dot [CallAdd "a" "x" [1%Q]] fresh)))
  ∧ ¬ not_populated
        (snd (run_call Linear.dot (CallDelete "a")
                (run Linear.dot [CallAdd "a" "x" [1%Q]] fresh))).
Proof.
  assert (Hn : 0 < entries (run Linear.dot [CallAdd "a" "x" [1%Q]] fresh))
    by (vm_compute; lia).
  split; [exact Hn|].
  exact (proj2 (proj2 (proj2
           (C3_not_populated_iff_never_added Linear.dot
              [CallAdd "a" "x" [1%Q]] [1%Q] 5 "a"))) Hn).
Defined.

Lemma C5_query_top_k_witness :
  (∃ w' scores l labels,
     query Linear.dot [1; 0]%Q 2
       (run Linear.dot [CallAdd "greet" "hello" [1; 0]%Q; CallAdd "greet" "hi" [9 # 10; 1 # 10]%Q;
                        CallAdd "bye" "goodbye" [0; 1]%Q] fresh)
     = (w', Return (scores, l))
     ∧ strings_at (objects w') (Some l) = Some labels
     ∧ descending scores
     ∧ best_entries Linear.dot [1; 0]%Q 2
         [[1; 0]; [9 # 10; 1 # 10]; [0; 1]]%Q ["greet"; "greet"; "bye"] scores labels)
  ∧ ∃ w' scores l,
      query Linear.dot [1; 0]%Q 2
        (run Linear.dot [CallAdd "greet" "hello" [1; 0]%Q; CallAdd "greet" "hi" [9 # 10; 1 # 10]%Q;
                         CallAdd "bye" "goodbye" [0; 1]%Q] fresh)
      = (w', Return (scores, l))
      ∧ strings_at (objects w') (Some l) = Some ["greet"; "greet"]
      ∧ descending scores.
Proof.
  destruct (C5_query_top_k Linear.dot) as [Hany Hscenario].
  split.
  - apply (Hany (run Linear.dot [CallAdd "greet" "hello" [1; 0]%Q;
                                 CallAdd "greet" "hi" [9 # 10; 1 # 10]%Q;
                                 CallAdd "bye" "goodbye" [0; 1]%Q] fresh)).
    split; [by eexists|]. vm_compute. lia.
  - apply Hscenario; reflexivity.
Defined.

Lemma C6_describe_counts_witness :
  describe (run Linear.dot [CallAdd "greet" "hello" [1; 0]%Q; CallGetRoutes;
                            CallAdd "bye" "goodbye" [0; 1]%Q] fresh)
  = (run Linear.dot [CallAdd "greet" "hello" [1; 0]%Q; CallGetRoutes;
                     CallAdd "bye" "goodbye" [0; 1]%Q] fresh,
     Return {| type := "local"; dimensions := 2; vectors := 2 |}).
Proof.
  apply (C6_describe_counts Linear.dot
           [CallAdd "greet" "hello" [1; 0]%Q; CallGetRoutes;
            CallAdd "bye" "goodbye" [0; 1]%Q] 2).
  - reflexivity.
  - repeat constructor.
Defined.

Lemma C8_describe_after_last_delete_witness :
  snd (describe (after Linear.dot (CallDelete "a")
                   (run Linear.dot [CallAdd "a" "x" [1; 2]%Q; CallAdd "a" "y" [3; 4]%Q] fresh)))
  = Return {| type := "local"; dimensions := 2; vectors := 0 |}.
Proof.
  apply (C8_describe_after_last_delete Linear.dot
           [CallAdd "a" "x" [1; 2]%Q; CallAdd "a" "y" [3; 4]%Q] "a"
           {| type := "local"; dimensions := 2; vectors := 2 |}).
  - reflexivity.
  - simpl. lia.
  - vm_compute. repeat constructor.
Defined.

Lemma C9_get_routes_before_any_add_witness :
  run_call Linear.dot CallGetRoutes (run Linear.dot [CallDescribe; CallDelete "a"] fresh)
  = (run Linear.dot [CallDescribe; CallDelete "a"] fresh,
     Raise (TypeError "'NoneType' object is not iterable")).
Proof.
  apply (C9_get_routes_before_any_add Linear.dot [CallDescribe; CallDelete "a"]).
  reflexivity.
Defined.

Lemma C10_query_read_only_witness :
  stored_routes
    (fst (query Linear.dot [1%Q] 1 (run Linear.dot [CallAdd "a" "x" [1%Q]] fresh)))
  = stored_routes (run Linear.dot [CallAdd "a" "x" [1%Q]] fresh)
  ∧ stored_utterances
      (fst (query Linear.dot [1%Q] 1 (run Linear.dot [CallAdd "a" "x" [1%Q]] fresh)))
    = stored_utterances (run Linear.dot [CallAdd "a" "x" [1%Q]] fresh).
Proof.
  apply (C10_query_read_only Linear.dot
           (run Linear.dot [CallAdd "a" "x" [1%Q]] fresh) [1%Q] 1).
  by exists [CallAdd "a" "x" [1%Q]].
Defined.

(** * What the code does beyond the claims *)

Section Behaviour.

Variable similarity : Np.ndarray1 → Np.ndarray1 → Q.

(** The array and the routes stay aligned under every call sequence: one
    label per row.  (The utterances do not, see C1.) *)
Theorem vectors_and_routes_aligned (cs : list call) :
  length (stored_vectors (run similarity cs fresh))
  = length (stored_routes (run similarity cs fresh)).
Proof.
  destruct (reachable_cases similarity cs) as [[_ ->]|[_ (a & rs & us & Hc)]]; [done|].
  unfold stored_vectors, stored_routes.
  rewrite (c_index _ _ _ _ Hc), (c_routes _ _ _ _ Hc). simpl.
  symmetry. apply (c_rows _ _ _ _ Hc).
Qed.

(** Once [add] was called, every [delete] raises [NameError]; before it
    does, the rows and routes carrying the label are gone; the utterances
    are never touched. *)
Theorem delete_after_add (cs : list call) (route_name : string) :
  existsb is_add cs = true →
  let w := run similarity cs fresh in
  let w' := after similarity (CallDelete route_name) w in
  snd (run_call similarity (CallDelete route_name) w) = Raise (NameError "i")
  ∧ stored_vectors w'
    = map snd (List.filter (λ p : string * Np.ndarray1, negb (String.eqb (fst p) route_name))
                 (combine (stored_routes w) (stored_vectors w)))
  ∧ stored_routes w' = routes_without route_name (stored_routes w)
  ∧ stored_utterances w' = stored_utterances w.
Proof.
  intros Hadd w w'. subst w w'.
  destruct (reachable_cases similarity cs) as [[Hadd' _]|[_ (a & rs & us & Hc)]];
    [congruence|].
  rewrite after_delete. cbn [run_call]. rewrite bind_run.
  destruct (delete_consistent _ _ _ _ route_name Hc) as (w' & -> & Hc' & _ & _).
  unfold stored_vectors, stored_routes, stored_utterances. cbn [fst snd].
  rewrite (c_index _ _ _ _ Hc), (c_routes _ _ _ _ Hc), (c_utterances _ _ _ _ Hc).
  by rewrite (c_index _ _ _ _ Hc'), (c_routes _ _ _ _ Hc'), (c_utterances _ _ _ _ Hc').
Qed.

(** [add] of a vector that fits returns, and appends the vector, the route
    and the utterance to the three sequences. *)
Theorem add_appends (cs : list call) (route utterance : string) (vector : Np.ndarray1) :
  dimension_fits (run similarity cs fresh) vector →
  let w := run similarity cs fresh in
  let w' := after similarity (CallAdd route utterance vector) w in
  snd (run_call similarity (CallAdd route utterance vector) w) = Return ANone
  ∧ stored_vectors w' = stored_vectors w ++ [vector]
  ∧ stored_routes w' = stored_routes w ++ [route]
  ∧ stored_utterances w' = stored_utterances w ++ [utterance].
Proof.
  intros Hfit w w'. subst w w'. unfold dimension_fits in Hfit.
  rewrite after_add. cbn [run_call]. rewrite bind_run.
  unfold stored_vectors, stored_routes, stored_utterances.
  destruct (reachable_cases similarity cs) as [[_ Hrun]|[_ (a & rs & us & Hc)]].
  - rewrite Hrun.
    destruct (add_first fresh route utterance vector eq_refl) as (w' & -> & Hc').
    cbn [fst snd]. simpl.
    by rewrite (c_index _ _ _ _ Hc'), (c_routes _ _ _ _ Hc'), (c_utterances _ _ _ _ Hc').
  - rewrite (c_index _ _ _ _ Hc) in Hfit |- *.
    destruct (add_next _ _ _ _ route utterance vector Hc Hfit) as (w' & -> & Hc' & _).
    cbn [fst snd].
    rewrite (c_routes _ _ _ _ Hc), (c_utterances _ _ _ _ Hc).
    by rewrite (c_index _ _ _ _ Hc'), (c_routes _ _ _ _ Hc'), (c_utterances _ _ _ _ Hc').
Qed.

(** [add] of a vector of another dimension than the stored one raises
    [ValueError], from [np.vstack], and leaves the index as it was. *)
Theorem add_rejects_other_dimension (w : world) (a : Np.ndarray2)
    (route utterance : string) (vector : Np.ndarray1) :
  index (self w) = Some a → length vector ≠ Np.shape1 a →
  ∃ msg, run_call similarity (CallAdd route utterance vector) w = (w, Raise (ValueError msg)).
Proof.
  intros Hix Hlen.
  destruct (add_mismatch w a route utterance vector Hix Hlen) as [msg Hrun].
  exists msg. cbn [run_call]. by rewrite bind_run, Hrun.
Qed.


(** Without [delete], [get_routes] returns the pairs in the order in which
    they were added. *)
Theorem get_routes_insertion_order (cs : list call) (d : nat) :
  existsb is_delete cs = false → adds_dimension d cs → added cs ≠ [] →
  ∃ w' l, get_routes (run similarity cs fresh) = (w', Return l)
          ∧ pairs_at (objects w') l = Some (map fst (added cs)).
Proof.
  intros Hnd Hdim Hne.
  destruct (adds_only_state similarity cs d Hnd Hdim) as [[Hadded _]|[_ Hc]]; [done|].
  rewrite (get_routes_consistent _ _ _ _ Hc).
  eexists _, _. split; [done|].
  unfold pairs_at. cbn [objects]. rewrite lookup_app_r, Nat.sub_diag by done.
  simpl. f_equal. clear. induction (added cs) as [|[[r u] v] l IH]; simpl; [done|].
  by rewrite IH.
Qed.

End Behaviour.

Lemma delete_after_add_witness :
  snd (run_call Linear.dot (CallDelete "a")
         (run Linear.dot [CallAdd "a" "x" [1%Q]; CallAdd "b" "y" [2%Q]] fresh))
  = Raise (NameError "i")
  ∧ stored_routes
      (after Linear.dot (CallDelete "a")
         (run Linear.dot [CallAdd "a" "x" [1%Q]; CallAdd "b" "y" [2%Q]] fresh))
    = ["b"].
Proof.
  destruct (delete_after_add Linear.dot [CallAdd "a" "x" [1%Q]; CallAdd "b" "y" [2%Q]] "a"
              eq_refl) as (Hraise & _ & Hroutes & _).
  split; [exact Hraise|exact Hroutes].
Defined.

Lemma add_appends_witness :
  stored_vectors
    (after Linear.dot (CallAdd "b" "y" [3; 4]%Q)
       (run Linear.dot [CallAdd "a" "x" [1; 2]%Q] fresh))
  = stored_vectors (run Linear.dot [CallAdd "a" "x" [1; 2]%Q] fresh) ++ [[3; 4]%Q].
Proof.
  apply (add_appends Linear.dot [CallAdd "a" "x" [1; 2]%Q] "b" "y" [3; 4]%Q).
  reflexivity.
Defined.

Lemma add_rejects_other_dimension_witness :
  ∃ msg,
    run_call Linear.dot (CallAdd "b" "y" [3%Q])
      (run Linear.dot [CallAdd "a" "x" [1; 2]%Q] fresh)
    = (run Linear.dot [CallAdd "a" "x" [1; 2]%Q] fresh, Raise (ValueError msg)).
Proof.
  apply (add_rejects_other_dimension Linear.dot
           (run Linear.dot [CallAdd "a" "x" [1; 2]%Q] fresh)
           (Np.reshape_1_m1 [1; 2]%Q) "b" "y" [3%Q]).
  - reflexivity.
  - simpl. lia.
Defined.


Lemma get_routes_insertion_order_witness :
  ∃ w' l,
    get_routes (run Linear.dot [CallAdd "a" "x" [1%Q]; CallDescribe; CallAdd "b" "y" [2%Q]] fresh)
    = (w', Return l)
    ∧ pairs_at (objects w') l = Some [("a", "x"); ("b", "y")].
Proof.
  apply (get_routes_insertion_order Linear.dot
           [CallAdd "a" "x" [1%Q]; CallDescribe; CallAdd "b" "y" [2%Q]] 1).
  - reflexivity.
  - repeat constructor.
  - discriminate.
Defined.

(** * Call sequences through the contents *)

(** ** Labels and rows as pairs *)

Lemma combine_fst_snd {A B} (l : list (A * B)) : combine (map fst l) (map snd l) = l.
Proof. induction l as [|[x y] l IH]; simpl; [done|]. by rewrite IH. Qed.

Lemma map_fst_combine {A B} (l : list A) (k : list B) :
  length l ≤ length k → map fst (combine l k) = l.
Proof.
  revert k. induction l as [|x l IH]; intros [|y k] Hlen; simpl in *; try done; [lia|].
  rewrite IH; [done|lia].
Qed.

Lemma map_snd_combine {A B} (l : list A) (k : list B) :
  length k ≤ length l → map snd (combine l k) = k.
Proof.
  revert l. induction k as [|y k IH]; intros [|x l] Hlen; simpl in *; try done; [lia|].
  rewrite IH; [done|lia].
Qed.

Lemma routes_without_labelled (route_name : string) (rs : list string)
    (rows : list Np.ndarray1) :
  length rs = length rows →
  routes_without route_name rs
  = map fst (List.filter (other_label route_name) (combine rs rows)).
Proof.
  revert rows. induction rs as [|r rs IH]; intros [|v rows] Hlen; simpl in *; try done.
  unfold other_label at 1. simpl.
  destruct (String.eqb r route_name); simpl; rewrite (IH rows); congruence.
Qed.

Lemma filter_comm {A} (f g : A → bool) (l : list A) :
  List.filter f (List.filter g l) = List.filter g (List.filter f l).
Proof.
  induction l as [|x l IH]; simpl; [done|].
  destruct (f x) eqn:Hf, (g x) eqn:Hg; simpl; rewrite ?Hf, ?Hg, IH; done.
Qed.

Lemma filter_idem {A} (f : A → bool) (l : list A) :
  List.filter f (List.filter f l) = List.filter f l.
Proof.
  induction l as [|x l IH]; simpl; [done|].
  destruct (f x) eqn:Hf; simpl; rewrite ?Hf, IH; done.
Qed.

Lemma filter_all {A} (f : A → bool) (l : list A) :
  Forall (λ x, f x = true) l → List.filter f l = l.
Proof. induction 1 as [|x l Hx _ IH]; simpl; [done|]. by rewrite Hx, IH. Qed.

Lemma routes_without_absent (route_name : string) (rs : list string) :
  route_name ∉ rs → routes_without route_name rs = rs.
Proof.
  intros Hout. apply filter_all, Forall_forall. intros r Hr.
  apply negb_true_iff, String.eqb_neq. intros ->. done.
Qed.

Lemma routes_without_gone (route_name : string) (rs : list string) :
  route_name ∉ routes_without route_name rs.
Proof.
  intros Hin. apply list_elem_of_In, filter_In in Hin as [_ Hne].
  apply negb_true_iff, String.eqb_neq in Hne. done.
Qed.

(** The labelled entries of a delete's result are the labelled entries
    whose label differs. *)
Lemma labelled_delete (route_name : string) (s : contents) :
  length (held_routes s) = Np.shape0 (held_array s) →
  labelled (step_contents (CallDelete route_name) s)
  = List.filter (other_label route_name) (labelled s).
Proof.
  intros Hlen. unfold labelled. cbn [step_contents held_array held_routes].
  unfold rows_without. cbn [Np.rows].
  rewrite (routes_without_labelled route_name _ (Np.rows (held_array s)) Hlen).
  apply combine_fst_snd.
Qed.

Lemma contents_of_labelled (s : contents) :
  length (held_routes s) = Np.shape0 (held_array s) →
  held_routes s = map fst (labelled s) ∧ Np.rows (held_array s) = map snd (labelled s).
Proof.
  intros Hlen. unfold labelled, Np.shape0 in *.
  rewrite map_fst_combine, map_snd_combine by lia. done.
Qed.

(** ** Every call follows [step_contents] *)

Section Contents.

Variable similarity : Np.ndarray1 → Np.ndarray1 → Q.

Lemma after_holds (c : call) (w : world) (s : contents) :
  holds w s → holds (after similarity c w) (step_contents c s).
Proof.
  unfold holds. intros Hc. destruct c as [r u v| | |q k|r]; cbn [step_contents].
  - rewrite after_add.
    destruct (length v =? Np.shape1 (held_array s)) eqn:Hlen.
    + apply Nat.eqb_eq in Hlen.
      by destruct (add_next _ _ _ _ r u v Hc Hlen) as (w' & -> & Hc' & _).
    + apply Nat.eqb_neq in Hlen.
      by destruct (add_mismatch w _ r u v (c_index _ _ _ _ Hc) Hlen) as [msg ->].
  - rewrite after_get_routes, (get_routes_consistent _ _ _ _ Hc).
    by eapply consistent_alloc.
  - by rewrite after_describe.
  - rewrite after_query.
    destruct (query_consistent similarity q k _ _ _ _ Hc) as (scores & labels & -> & _).
    by eapply consistent_alloc.
  - rewrite after_delete.
    by destruct (delete_consistent _ _ _ _ r Hc) as (w' & -> & Hc' & _).
Qed.

Lemma run_app (cs cs' : list call) (w : world) :
  run similarity (cs ++ cs') w = run similarity cs' (run similarity cs w).
Proof. unfold run. by rewrite foldl_app. Qed.

Lemma run_holds (cs : list call) (w : world) (s : contents) :
  holds w s → holds (run similarity cs w) (contents_after cs s).
Proof.
  revert w s. induction cs as [|c cs IH]; intros w s Hs; [done|].
  apply (IH (after similarity c w) (step_contents c s)). by apply after_holds.
Qed.

Lemma stored_of_holds (w : world) (s : contents) :
  holds w s →
  stored_vectors w = Np.rows (held_array s)
  ∧ stored_routes w = held_routes s
  ∧ stored_utterances w = held_utterances s.
Proof.
  intros Hs. unfold stored_vectors, stored_routes, stored_utterances.
  by rewrite (c_index _ _ _ _ Hs), (c_routes _ _ _ _ Hs), (c_utterances _ _ _ _ Hs).
Qed.

Lemma stored_by_labelled (w : world) (s : contents) :
  holds w s →
  stored_vectors w = map snd (labelled s)
  ∧ stored_routes w = map fst (labelled s)
  ∧ stored_utterances w = held_utterances s.
Proof.
  intros Hs. destruct (stored_of_holds w s Hs) as (-> & -> & ->).
  by destruct (contents_of_labelled s (c_rows _ _ _ _ Hs)) as [<- <-].
Qed.

(** *** What [step_contents] keeps *)

Lemma step_shape1 (c : call) (s : contents) :
  Np.shape1 (held_array (step_contents c s)) = Np.shape1 (held_array s).
Proof.
  destruct c as [r u v| | |q k|r]; cbn [step_contents]; try done.
  by destruct (length v =? _).
Qed.

Lemma contents_after_shape1 (cs : list call) (s : contents) :
  Np.shape1 (held_array (contents_after cs s)) = Np.shape1 (held_array s).
Proof.
  revert s. induction cs as [|c cs IH]; intros s; [done|].
  unfold contents_after in *. cbn [foldl]. by rewrite IH, step_shape1.
Qed.

Lemma step_utterances (c : call) (s : contents) :
  held_utterances s `prefix_of` held_utterances (step_contents c s).
Proof.
  destruct c as [r u v| | |q k|r]; cbn [step_contents]; try done.
  destruct (length v =? _); [|done]. by apply prefix_app_r.
Qed.

Lemma contents_after_utterances (cs : list call) (s : contents) :
  held_utterances s `prefix_of` held_utterances (contents_after cs s).
Proof.
  revert s. induction cs as [|c cs IH]; intros s; [done|].
  unfold contents_after in *. cbn [foldl].
  etrans; [apply (step_utterances c)|apply IH].
Qed.

Lemma step_fewer_routes (c : call) (s : contents) :
  length (held_routes s) ≤ length (held_utterances s) →
  length (held_routes (step_contents c s)) ≤ length (held_utterances (step_contents c s)).
Proof.
  intros Hle. destruct c as [r u v| | |q k|r]; cbn [step_contents]; try done.
  - destruct (length v =? _); [|done]. cbn. rewrite !length_app. simpl. lia.
  - cbn. unfold routes_without.
    pose proof (filter_length_le (λ route, negb (String.eqb route r)) (held_routes s)).
    lia.
Qed.

(** A reachable object is untouched or holds contents with no more routes
    than utterances. *)
Lemma reachable_view (cs : list call) :
  (existsb is_add cs = false ∧ run similarity cs fresh = fresh)
  ∨ (existsb is_add cs = true
     ∧ ∃ s, holds (run similarity cs fresh) s
            ∧ length (held_routes s) ≤ length (held_utterances s)).
Proof.
  induction cs as [|c cs IH] using rev_ind; [by left|].
  rewrite run_snoc, existsb_app. simpl. rewrite orb_false_r.
  destruct IH as [[-> Hrun]|[-> (s & Hs & Hle)]]; simpl.
  - rewrite Hrun. destruct (is_add c) eqn:Hadd.
    + right. split; [done|].
      destruct c as [r u v| | |q k|r]; try done.
      rewrite after_add.
      destruct (add_first fresh r u v eq_refl) as (w' & -> & Hc).
      by exists {| held_array := Np.reshape_1_m1 v; held_routes := [r];
                   held_utterances := [u] |}.
    + left. split; [done|]. by apply after_unset.
  - right. split; [done|]. exists (step_contents c s).
    split; [by apply after_holds|by apply step_fewer_routes].
Qed.

End Contents.

(** * How the calls compose *)

Lemma count_split (route_name : string) (rs : list string) (rows : list Np.ndarray1) :
  length rs = length rows →
  length rows
  = length (List.filter (other_label route_name) (combine rs rows))
    + length (List.filter (λ route, String.eqb route route_name) rs).
Proof.
  revert rows. induction rs as [|r rs IH]; intros [|v rows] Hlen; simpl in *; try done.
  injection Hlen as Hlen. unfold other_label at 1. simpl.
  destruct (String.eqb r route_name); simpl; rewrite (IH rows Hlen); lia.
Qed.

Lemma labelled_add (route utterance : string) (vector : Np.ndarray1) (s : contents) :
  length (held_routes s) = Np.shape0 (held_array s) →
  length vector = Np.shape1 (held_array s) →
  labelled (step_contents (CallAdd route utterance vector) s)
  = labelled s ++ [(route, vector)].
Proof.
  intros Hrows Hlen. unfold labelled. cbn [step_contents].
  apply Nat.eqb_eq in Hlen. rewrite Hlen. cbn [held_array held_routes Np.rows].
  revert Hrows. unfold Np.shape0.
  generalize (held_routes s) (Np.rows (held_array s)).
  induction l as [|r rs IH]; intros [|v rows] Hrows; simpl in *; try done.
  injection Hrows as Hrows. by rewrite IH.
Qed.

Section Composition.

Variable similarity : Np.ndarray1 → Np.ndarray1 → Q.

(** The dimension is fixed by the first [add]: whatever calls follow,
    [describe()] reports the length of the first vector added. *)
Theorem dimension_fixed_by_first_add (pre post : list call)
    (route utterance : string) (vector : Np.ndarray1) :
  existsb is_add pre = false →
  ∃ n, snd (describe (run similarity (pre ++ CallAdd route utterance vector :: post) fresh))
       = Return {| type := "local"; dimensions := length vector; vectors := n |}.
Proof.
  intros Hpre. rewrite run_app.
  destruct (reachable_cases similarity pre) as [[_ ->]|[Hadd _]]; [|congruence].
  change (run similarity (CallAdd route utterance vector :: post) fresh)
    with (run similarity post (after similarity (CallAdd route utterance vector) fresh)).
  rewrite after_add.
  destruct (add_first fresh route utterance vector eq_refl) as (w' & -> & Hc).
  cbn [fst].
  pose proof (run_holds similarity post w'
                {| held_array := Np.reshape_1_m1 vector; held_routes := [route];
                   held_utterances := [utterance] |} Hc) as Hs.
  rewrite describe_pure, (c_index _ _ _ _ Hs), contents_after_shape1.
  by eexists.
Qed.

(** On every reachable index, each stored vector has the dimension
    [describe()] reports. *)
Theorem stored_vectors_have_dimension (cs : list call) :
  ∃ d, snd (describe (run similarity cs fresh)) = Return d
       ∧ Forall (λ v, length v = dimensions d) (stored_vectors (run similarity cs fresh)).
Proof.
  rewrite describe_pure. eexists. split; [done|].
  destruct (reachable_cases similarity cs) as [[_ ->]|[_ (a & rs & us & Hc)]].
  - constructor.
  - unfold stored_vectors. rewrite (c_index _ _ _ _ Hc). apply (c_rectangular _ _ _ _ Hc).
Qed.

(** No call removes or reorders a stored utterance: what the utterances
    list held at some point is a prefix of what it holds later. *)
Theorem utterances_never_removed (cs cs' : list call) :
  stored_utterances (run similarity cs fresh)
  `prefix_of` stored_utterances (run similarity (cs ++ cs') fresh).
Proof.
  rewrite run_app.
  destruct (reachable_view similarity cs) as [[_ ->]|[_ (s & Hs & _)]].
  - apply prefix_nil.
  - destruct (stored_of_holds _ _ Hs) as (_ & _ & ->).
    destruct (stored_of_holds _ _ (run_holds similarity cs' _ _ Hs)) as (_ & _ & ->).
    apply contents_after_utterances.
Qed.

(** [delete(route_name)] lowers the number of stored vectors by the number
    of stored routes equal to [route_name]. *)
Theorem delete_count (cs : list call) (route_name : string) :
  entries (run similarity cs fresh)
  = entries (after similarity (CallDelete route_name) (run similarity cs fresh))
    + length (List.filter (λ route, String.eqb route route_name)
                (stored_routes (run similarity cs fresh))).
Proof.
  unfold entries.
  destruct (reachable_view similarity cs) as [[_ ->]|[_ (s & Hs & _)]]; [done|].
  pose proof (after_holds similarity (CallDelete route_name) _ _ Hs) as Hs'.
  destruct (stored_of_holds _ _ Hs) as (-> & -> & _).
  destruct (stored_by_labelled _ _ Hs') as (-> & _ & _).
  rewrite (labelled_delete _ _ (c_rows _ _ _ _ Hs)), length_map.
  apply count_split, (c_rows _ _ _ _ Hs).
Qed.

(** After [delete(route_name)] no stored route is [route_name], and no
    [query] returns it as a label. *)
Theorem delete_removes_label (cs : list call) (route_name : string) :
  let w := after similarity (CallDelete route_name) (run similarity cs fresh) in
  (route_name ∉ stored_routes w)
  ∧ (∀ query_vector top_k w' scores l labels,
       query similarity query_vector top_k w = (w', Return (scores, l)) →
       strings_at (objects w') (Some l) = Some labels →
       route_name ∉ labels).
Proof.
  intros w. subst w.
  destruct (reachable_view similarity cs) as [[_ ->]|[_ (s & Hs & _)]].
  - split; [by apply not_elem_of_nil|]. intros q k w' scores l labels Hq. done.
  - pose proof (after_holds similarity (CallDelete route_name) _ _ Hs) as Hs'.
    destruct (stored_of_holds _ _ Hs') as (_ & Hroutes & _).
    split; [rewrite Hroutes; apply routes_without_gone|].
    intros q k w' scores l labels Hq Hl.
    destruct (query_consistent similarity q k _ _ _ _ Hs')
      as (scores' & labels' & Hq' & _ & positions & _ & _ & Hlen & _ & Hpos & _).
    rewrite Hq' in Hq. injection Hq as <- <- <-.
    unfold strings_at in Hl. cbn in Hl. rewrite lookup_app_r, Nat.sub_diag in Hl by done.
    injection Hl as <-.
    intros Hin. apply list_elem_of_lookup in Hin as [j Hj].
    destruct (lookup_lt_is_Some_2 positions j) as [i Hi].
    { rewrite <- Hlen. by eapply lookup_lt_Some. }
    destruct (Hpos j i Hi) as (v & r & _ & Hr & _ & Hj').
    assert (r = route_name) as -> by congruence.
    apply list_elem_of_lookup_2 in Hr. cbn [step_contents held_routes] in Hr.
    by apply routes_without_gone in Hr.
Qed.

(** A second [delete] of the same route changes none of the three stored
    sequences. *)
Theorem delete_twice (cs : list call) (route_name : string) :
  let w1 := after similarity (CallDelete route_name) (run similarity cs fresh) in
  let w2 := after similarity (CallDelete route_name) w1 in
  stored_vectors w2 = stored_vectors w1
  ∧ stored_routes w2 = stored_routes w1
  ∧ stored_utterances w2 = stored_utterances w1.
Proof.
  intros w1 w2. subst w1 w2.
  destruct (reachable_view similarity cs) as [[_ ->]|[_ (s & Hs & _)]]; [done|].
  pose proof (after_holds similarity (CallDelete route_name) _ _ Hs) as Hs1.
  pose proof (after_holds similarity (CallDelete route_name) _ _ Hs1) as Hs2.
  destruct (stored_by_labelled _ _ Hs1) as (-> & -> & ->).
  destruct (stored_by_labelled _ _ Hs2) as (-> & -> & ->).
  rewrite (labelled_delete _ _ (c_rows _ _ _ _ Hs1)).
  rewrite (labelled_delete _ _ (c_rows _ _ _ _ Hs)).
  by rewrite filter_idem.
Qed.

(** Two [delete]s leave the same stored sequences in either order. *)
Theorem delete_order (cs : list call) (r1 r2 : string) :
  let w12 := run similarity [CallDelete r1; CallDelete r2] (run similarity cs fresh) in
  let w21 := run similarity [CallDelete r2; CallDelete r1] (run similarity cs fresh) in
  stored_vectors w12 = stored_vectors w21
  ∧ stored_routes w12 = stored_routes w21
  ∧ stored_utterances w12 = stored_utterances w21.
Proof.
  intros w12 w21. subst w12 w21.
  destruct (reachable_view similarity cs) as [[_ ->]|[_ (s & Hs & _)]]; [done|].
  pose proof (after_holds similarity (CallDelete r1) _ _ Hs) as Hs1.
  pose proof (after_holds similarity (CallDelete r2) _ _ Hs1) as Hs12.
  pose proof (after_holds similarity (CallDelete r2) _ _ Hs) as Hs2.
  pose proof (after_holds similarity (CallDelete r1) _ _ Hs2) as Hs21.
  change (run similarity [CallDelete r1; CallDelete r2] (run similarity cs fresh))
    with (after similarity (CallDelete r2)
            (after similarity (CallDelete r1) (run similarity cs fresh))).
  change (run similarity [CallDelete r2; CallDelete r1] (run similarity cs fresh))
    with (after similarity (CallDelete r1)
            (after similarity (CallDelete r2) (run similarity cs fresh))).
  destruct (stored_by_labelled _ _ Hs12) as (-> & -> & ->).
  destruct (stored_by_labelled _ _ Hs21) as (-> & -> & ->).
  rewrite (labelled_delete _ _ (c_rows _ _ _ _ Hs1)), (labelled_delete _ _ (c_rows _ _ _ _ Hs)).
  rewrite (labelled_delete _ _ (c_rows _ _ _ _ Hs2)), (labelled_delete _ _ (c_rows _ _ _ _ Hs)).
  by rewrite filter_comm.
Qed.

(** [delete] of a label no stored entry carries leaves the three stored
    sequences as they were. *)
Theorem delete_absent_keeps_contents (cs : list call) (route_name : string) :
  route_name ∉ stored_routes (run similarity cs fresh) →
  let w := run similarity cs fresh in
  let w' := after similarity (CallDelete route_name) w in
  stored_vectors w' = stored_vectors w
  ∧ stored_routes w' = stored_routes w
  ∧ stored_utterances w' = stored_utterances w.
Proof.
  intros Hout w w'. subst w w'.
  destruct (reachable_view similarity cs) as [[_ ->]|[_ (s & Hs & _)]]; [done|].
  pose proof (after_holds similarity (CallDelete route_name) _ _ Hs) as Hs'.
  destruct (stored_by_labelled _ _ Hs) as (Hv & Hr & Hu).
  rewrite Hr in Hout. rewrite Hv, Hr, Hu.
  destruct (stored_by_labelled _ _ Hs') as (-> & -> & ->).
  rewrite (labelled_delete _ _ (c_rows _ _ _ _ Hs)).
  rewrite filter_all; [done|].
  apply Forall_forall. intros [r v] Hin.
  apply negb_true_iff, String.eqb_neq. intros Heq. simpl in Heq. subst r.
  apply Hout. apply list_elem_of_fmap. by exists (route_name, v).
Qed.

(** [add] under a label no stored entry carries, then [delete] of that
    label: the stored vectors and routes are back as they were, the
    utterance stays behind. *)
Theorem add_then_delete (cs : list call) (route utterance : string)
    (vector : Np.ndarray1) :
  dimension_fits (run similarity cs fresh) vector →
  route ∉ stored_routes (run similarity cs fresh) →
  let w := run similarity cs fresh in
  let w' := run similarity [CallAdd route utterance vector; CallDelete route] w in
  stored_vectors w' = stored_vectors w
  ∧ stored_routes w' = stored_routes w
  ∧ stored_utterances w' = stored_utterances w ++ [utterance].
Proof.
  intros Hfit Hout w w'. subst w w'.
  change (run similarity [CallAdd route utterance vector; CallDelete route]
            (run similarity cs fresh))
    with (after similarity (CallDelete route)
            (after similarity (CallAdd route utterance vector) (run similarity cs fresh))).
  destruct (reachable_view similarity cs) as [[_ Hrun]|[_ (s & Hs & _)]].
  - rewrite Hrun. rewrite after_add.
    destruct (add_first fresh route utterance vector eq_refl) as (w' & -> & Hc).
    cbn [fst].
    pose proof (after_holds similarity (CallDelete route) w'
                  {| held_array := Np.reshape_1_m1 vector; held_routes := [route];
                     held_utterances := [utterance] |} Hc) as Hs'.
    destruct (stored_of_holds _ _ Hs') as (-> & -> & ->).
    cbn. unfold routes_without. simpl. by rewrite String.eqb_refl.
  - unfold dimension_fits in Hfit. rewrite (c_index _ _ _ _ Hs) in Hfit.
    pose proof (after_holds similarity (CallAdd route utterance vector) _ _ Hs) as Hs1.
    pose proof (after_holds similarity (CallDelete route) _ _ Hs1) as Hs2.
    destruct (stored_by_labelled _ _ Hs) as (Hv & Hr & Hu).
    rewrite Hr in Hout. rewrite Hv, Hr, Hu.
    destruct (stored_by_labelled _ _ Hs2) as (-> & -> & ->).
    rewrite (labelled_delete _ _ (c_rows _ _ _ _ Hs1)).
    rewrite (labelled_add _ _ _ _ (c_rows _ _ _ _ Hs) Hfit).
    assert (Hback : List.filter (other_label route) (labelled s ++ [(route, vector)])
                    = labelled s).
    { rewrite List.filter_app. cbn [List.filter]. unfold other_label at 2. cbn [fst].
      rewrite String.eqb_refl. cbn [negb]. rewrite app_nil_r.
      apply filter_all, Forall_forall. intros [r v] Hin.
      apply negb_true_iff, String.eqb_neq. intros Heq. simpl in Heq. subst r.
      apply Hout. apply list_elem_of_fmap. by exists (route, v). }
    rewrite Hback. cbn [step_contents held_utterances].
    apply Nat.eqb_eq in Hfit. by rewrite Hfit.
Qed.

(** Once [add] was called, [get_routes()] returns one pair per stored
    vector, and the first components are the stored routes in order: the
    pairs are the stored routes zipped with the stored utterances. *)
Theorem get_routes_follows_routes (cs : list call) :
  existsb is_add cs = true →
  let w := run similarity cs fresh in
  ∃ w' l ps,
    get_routes w = (w', Return l)
    ∧ pairs_at (objects w') l = Some ps
    ∧ ps = combine (stored_routes w) (stored_utterances w)
    ∧ map fst ps = stored_routes w
    ∧ length ps = entries w.
Proof.
  intros Hadd w. subst w.
  destruct (reachable_view similarity cs) as [[Hadd' _]|[_ (s & Hs & Hle)]]; [congruence|].
  rewrite (get_routes_consistent _ _ _ _ Hs).
  destruct (stored_of_holds _ _ Hs) as (Hv & -> & ->).
  eexists _, _, _. split; [done|]. split.
  { unfold pairs_at. cbn [objects]. by rewrite lookup_app_r, Nat.sub_diag. }
  split; [done|]. split; [by apply map_fst_combine|].
  unfold entries. rewrite Hv, length_combine.
  pose proof (c_rows _ _ _ _ Hs) as Hrows. unfold Np.shape0 in Hrows. lia.
Qed.

End Composition.

(** * Objects that calls leave alone *)

(** ** Only [add] writes into an object *)

Section ObjectsKept.

Variable similarity : Np.ndarray1 → Np.ndarray1 → Q.

Lemma keeps_objects_refl (w : world) : keeps_objects w w.
Proof. by intros l o. Qed.

Lemma keeps_objects_trans (w1 w2 w3 : world) :
  keeps_objects w1 w2 → keeps_objects w2 w3 → keeps_objects w1 w3.
Proof. intros H12 H23 l o Hl. by apply H23, H12. Qed.

Lemma objects_kept_pure {A} (m : py A) : (∀ w, fst (m w) = w) → objects_kept m.
Proof. intros Hm w. rewrite Hm. apply keeps_objects_refl. Qed.

Lemma objects_kept_bind {A B} (m : py A) (f : A → py B) :
  objects_kept m → (∀ a, objects_kept (f a)) → objects_kept (m ≫= f).
Proof.
  intros Hm Hf w. rewrite bind_run. specialize (Hm w).
  destruct (m w) as [w' [a|e]]; simpl in Hm; [|done].
  eapply keeps_objects_trans; [exact Hm|apply Hf].
Qed.

Lemma objects_kept_ret {A} (a : A) : objects_kept (mret a).
Proof. by apply objects_kept_pure. Qed.

Lemma objects_kept_raise {A} (e : exn) : objects_kept (@raise A e).
Proof. by apply objects_kept_pure. Qed.

Lemma objects_kept_np {A} (r : outcome A) : objects_kept (np r).
Proof. by apply objects_kept_pure. Qed.

Lemma objects_kept_get_index : objects_kept get_index.
Proof. by apply objects_kept_pure. Qed.

Lemma objects_kept_get_routes_attr : objects_kept get_routes_attr.
Proof. by apply objects_kept_pure. Qed.

Lemma objects_kept_get_utterances_attr : objects_kept get_utterances_attr.
Proof. by apply objects_kept_pure. Qed.

Lemma objects_kept_set_index v : objects_kept (set_index v).
Proof. by intros w l o. Qed.

Lemma objects_kept_set_routes v : objects_kept (set_routes v).
Proof. by intros w l o. Qed.

Lemma objects_kept_set_utterances v : objects_kept (set_utterances v).
Proof. by intros w l o. Qed.

Lemma objects_kept_new_object (o : pyobj) : objects_kept (new_object o).
Proof. intros w l o' Hl. simpl. by apply lookup_app_l_Some. Qed.

Lemma objects_kept_iterate attr : objects_kept (iterate attr).
Proof.
  apply objects_kept_pure. intros w. unfold iterate.
  destruct attr as [l|]; [|done]. by destruct (objects w !! l) as [[xs|ps]|].
Qed.

Lemma objects_kept_subscript attr i : objects_kept (subscript attr i).
Proof.
  apply objects_kept_pure. intros w. unfold subscript.
  destruct attr as [l|]; [|done]. destruct (objects w !! l) as [[xs|ps]|]; try done.
  by destruct (xs !! i).
Qed.

Lemma objects_kept_comprehension {A B} (f : A → py B) (l : list A) :
  (∀ x, objects_kept (f x)) → objects_kept (comprehension f l).
Proof.
  intros Hf. induction l as [|x l IH]; simpl; [apply objects_kept_ret|].
  apply objects_kept_bind; [done|]. intros y.
  apply objects_kept_bind; [done|]. intros ys. apply objects_kept_ret.
Qed.

Lemma objects_kept_comprehension_if {A} (cond : A → py bool) (l : list A) :
  (∀ x, objects_kept (cond x)) → objects_kept (comprehension_if cond l).
Proof.
  intros Hc. induction l as [|x l IH]; simpl; [apply objects_kept_ret|].
  apply objects_kept_bind; [done|]. intros b.
  apply objects_kept_bind; [done|]. intros ys. apply objects_kept_ret.
Qed.

Create HintDb kept.
#[local] Hint Resolve objects_kept_ret objects_kept_raise objects_kept_np
  objects_kept_get_index objects_kept_get_routes_attr objects_kept_get_utterances_attr
  objects_kept_set_index objects_kept_set_routes objects_kept_set_utterances
  objects_kept_new_object objects_kept_iterate objects_kept_subscript : kept.

Ltac kept_steps :=
  repeat (apply objects_kept_bind; [auto with kept|intros]); auto with kept.

Lemma objects_kept_get_routes : objects_kept get_routes.
Proof. unfold get_routes. kept_steps. Qed.

Lemma objects_kept_query query_vector top_k :
  objects_kept (query similarity query_vector top_k).
Proof.
  unfold query. apply objects_kept_bind; [auto with kept|].
  intros [a|]; [|auto with kept].
  destruct (Linear.top_scores _ _) as [scores indices].
  apply objects_kept_bind; [|intros; kept_steps].
  apply objects_kept_comprehension. intros i. kept_steps.
Qed.

Lemma objects_kept_delete route_name : objects_kept (delete route_name).
Proof.
  unfold delete. apply objects_kept_bind; [auto with kept|].
  intros [l|]; [|auto with kept].
  do 10 (apply objects_kept_bind; [auto with kept|intros]).
  apply objects_kept_bind; [|intros; kept_steps].
  apply objects_kept_comprehension_if. intros utterance.
  unfold read_unbound_name. kept_steps.
Qed.

(** [get_routes], [describe], [query] and [delete] write into no object:
    every object that existed before the call, whoever holds it, is
    unchanged after it, whether the call returned or raised.  ([delete]
    rebinds the attributes to new lists; [add] is the one method that
    writes in place.) *)
Theorem only_add_writes (c : call) (w : world) (l : loc) (o : pyobj) :
  is_add c = false → objects w !! l = Some o →
  objects (after similarity c w) !! l = Some o.
Proof.
  intros Hc. revert l o. change (keeps_objects w (after similarity c w)).
  destruct c as [r u v| | |q k|r]; try done.
  - rewrite after_get_routes. apply objects_kept_get_routes.
  - rewrite after_describe. apply keeps_objects_refl.
  - rewrite after_query. apply objects_kept_query.
  - rewrite after_delete. apply objects_kept_delete.
Qed.

(** [get_routes] is a read: it changes no attribute and no object, and on
    every reachable index the three stored sequences are the same before
    and after the call. *)
Theorem get_routes_read_only (w : world) :
  let w' := fst (get_routes w) in
  self w' = self w
  ∧ (∀ l o, objects w !! l = Some o → objects w' !! l = Some o)
  ∧ stored_vectors w' = stored_vectors w
  ∧ (reachable similarity w →
     stored_routes w' = stored_routes w ∧ stored_utterances w' = stored_utterances w).
Proof.
  intros w'. subst w'.
  assert (Hself : self (fst (get_routes w)) = self w).
  { unfold get_routes. rewrite bind_run. cbn [get_routes_attr].
    rewrite bind_run. unfold iterate at 1.
    destruct (routes (self w)) as [lr|]; [|done].
    destruct (objects w !! lr) as [[rs|ps]|]; try done.
    rewrite bind_run. cbn [get_utterances_attr]. rewrite bind_run. unfold iterate.
    destruct (utterances (self w)) as [lu|]; [|done].
    by destruct (objects w !! lu) as [[us|ps]|]. }
  split; [done|]. split; [apply objects_kept_get_routes|]. split.
  { unfold stored_vectors. by rewrite Hself. }
  intros [cs ->].
  destruct (reachable_cases similarity cs) as [[_ Hrun]|[_ (a & rs & us & Hc)]].
  - by rewrite Hrun.
  - rewrite (get_routes_consistent _ _ _ _ Hc). cbn [fst].
    unfold stored_routes, stored_utterances. cbn [objects self].
    rewrite (strings_at_alloc _ _ _ _ (c_routes _ _ _ _ Hc)).
    rewrite (strings_at_alloc _ _ _ _ (c_utterances _ _ _ _ Hc)).
    by rewrite (c_routes _ _ _ _ Hc), (c_utterances _ _ _ _ Hc).
Qed.

End ObjectsKept.

(** * The two guards, on every object *)

Section Guards.

Variable similarity : Np.ndarray1 → Np.ndarray1 → Q.

Lemma no_value_error_bind {A B} (m : py A) (f : A → py B) :
  no_value_error m → (∀ a, no_value_error (f a)) → no_value_error (m ≫= f).
Proof.
  intros Hm Hf w msg. rewrite bind_run. specialize (Hm w msg).
  destruct (m w) as [w' [a|e]]; simpl in *; [apply Hf|].
  intros [= ->]. by apply Hm.
Qed.

Lemma no_value_error_returns {A} (m : py A) :
  (∀ w, ∃ a, snd (m w) = Return a) → no_value_error m.
Proof. intros Hm w msg. destruct (Hm w) as [a ->]. done. Qed.

Lemma no_value_error_ret {A} (a : A) : no_value_error (mret a).
Proof. apply no_value_error_returns. by eexists. Qed.

Lemma no_value_error_get_index : no_value_error get_index.
Proof. apply no_value_error_returns. by eexists. Qed.

Lemma no_value_error_get_routes_attr : no_value_error get_routes_attr.
Proof. apply no_value_error_returns. by eexists. Qed.

Lemma no_value_error_get_utterances_attr : no_value_error get_utterances_attr.
Proof. apply no_value_error_returns. by eexists. Qed.

Lemma no_value_error_set_index v : no_value_error (set_index v).
Proof. apply no_value_error_returns. by eexists. Qed.

Lemma no_value_error_set_routes v : no_value_error (set_routes v).
Proof. apply no_value_error_returns. by eexists. Qed.

Lemma no_value_error_set_utterances v : no_value_error (set_utterances v).
Proof. apply no_value_error_returns. by eexists. Qed.

Lemma no_value_error_new_object o : no_value_error (new_object o).
Proof. apply no_value_error_returns. by eexists. Qed.

Lemma no_value_error_iterate attr : no_value_error (iterate attr).
Proof.
  intros w msg. unfold iterate.
  destruct attr as [l|]; [|done]. by destruct (objects w !! l) as [[xs|ps]|].
Qed.

Lemma no_value_error_subscript attr i : no_value_error (subscript attr i).
Proof.
  intros w msg. unfold subscript.
  destruct attr as [l|]; [|done]. destruct (objects w !! l) as [[xs|ps]|]; try done.
  by destruct (xs !! i).
Qed.

Lemma no_value_error_unbound {A} name : no_value_error (@read_unbound_name A name).
Proof. by intros w msg. Qed.

(** [np.delete] raises [AxisError] or [IndexError], not [ValueError]. *)
Lemma no_value_error_np_delete a obj : no_value_error (np (Np.delete a obj)).
Proof.
  intros w msg. unfold np, Np.delete. cbn [snd].
  destruct a as [a|]; [|done]. by destruct (forallb _ obj).
Qed.

Lemma no_value_error_comprehension {A B} (f : A → py B) (l : list A) :
  (∀ x, no_value_error (f x)) → no_value_error (comprehension f l).
Proof.
  intros Hf. induction l as [|x l IH]; simpl; [apply no_value_error_ret|].
  apply no_value_error_bind; [done|]. intros y.
  apply no_value_error_bind; [done|]. intros ys. apply no_value_error_ret.
Qed.

Lemma no_value_error_comprehension_if {A} (cond : A → py bool) (l : list A) :
  (∀ x, no_value_error (cond x)) → no_value_error (comprehension_if cond l).
Proof.
  intros Hc. induction l as [|x l IH]; simpl; [apply no_value_error_ret|].
  apply no_value_error_bind; [done|]. intros b.
  apply no_value_error_bind; [done|]. intros ys. apply no_value_error_ret.
Qed.

Create HintDb guards.
#[local] Hint Resolve no_value_error_ret no_value_error_get_index
  no_value_error_get_routes_attr no_value_error_get_utterances_attr
  no_value_error_set_index no_value_error_set_routes no_value_error_set_utterances
  no_value_error_new_object no_value_error_iterate no_value_error_subscript
  no_value_error_unbound no_value_error_np_delete : guards.

Ltac guard_steps :=
  repeat (apply no_value_error_bind; [auto with guards|intros]); auto with guards.

(** [query] past its guard. *)
Lemma query_past_guard (query_vector : Np.ndarray1) (top_k : nat) (w : world) a msg :
  index (self w) = Some a →
  snd (query similarity query_vector top_k w) ≠ Raise (ValueError msg).
Proof.
  intros Hix. rewrite query_run, Hix.
  destruct (Linear.top_scores _ _) as [scores indices].
  assert (Hc : no_value_error
                 (comprehension (λ i, r ← get_routes_attr; subscript r i) indices)).
  { apply no_value_error_comprehension. intros i. guard_steps. }
  specialize (Hc w msg).
  destruct (comprehension _ indices w) as [w' [labels|e]]; simpl in *; [done|].
  intros [= ->]. by apply Hc.
Qed.

(** [delete] past its guard. *)
Lemma delete_past_guard (route_name : string) (w : world) l msg :
  routes (self w) = Some l →
  snd (delete route_name w) ≠ Raise (ValueError msg).
Proof.
  intros Hr. unfold delete. rewrite bind_run. cbn [get_routes_attr]. rewrite Hr.
  apply no_value_error_bind; [auto with guards|]. intros rs.
  do 9 (apply no_value_error_bind; [auto with guards|intros]).
  apply no_value_error_bind; [|intros; guard_steps].
  apply no_value_error_comprehension_if. intros utterance. guard_steps.
Qed.


End Guards.

(** * [delete], exactly *)

(** [delete] on an object whose attributes are all set and whose routes
    list has one label per row: what it assigns, and where it stops. *)
Lemma delete_run (h : heap) (a : Np.ndarray2) (lr lu : loc) (rs us : list string)
    (route_name : string) :
  h !! lr = Some (StrList rs) → h !! lu = Some (StrList us) →
  length rs = Np.shape0 a →
  delete route_name (init h (Some a) (Some lr) (Some lu))
  = match us with
    | [] =>
        (init ((h ++ [StrList (routes_without route_name rs)]) ++ [StrList []])
           (Some (rows_without route_name rs a)) (Some (length h)) (Some (S (length h))),
         Return ())
    | _ :: _ =>
        (init (h ++ [StrList (routes_without route_name rs)])
           (Some (rows_without route_name rs a)) (Some (length h)) (Some lu),
         Raise (NameError "i"))
    end.
Proof.
  intros Hlr Hlu Hrows. unfold init.
  unfold delete, get_routes_attr, mbind, py_bind at 1 2.
  cbn [objects self index routes utterances fst snd].
  unfold iterate at 1. cbn [objects]. rewrite Hlr.
  unfold get_index, py_bind at 1 2. cbn [objects self index].
  unfold np at 1. rewrite np_delete_by_label by done.
  unfold py_bind at 1 2 3 4 5 6 7 8, set_index, iterate at 1, new_object at 1, set_routes.
  cbn [objects self index routes utterances fst snd]. rewrite Hlr.
  cbn [objects self index routes utterances fst snd].
  unfold get_utterances_attr, iterate. cbn [objects self index routes utterances fst snd].
  rewrite (lookup_app_l_Some _ _ _ _ Hlu).
  rewrite (comprehension_if_raises _ (NameError "i")) by done.
  destruct us as [|u0 us]; [|done].
  unfold py_bind, new_object, set_utterances.
  cbn [objects self index routes utterances fst snd].
  by rewrite length_app, Nat.add_1_r.
Qed.

(** On such an object [delete] returns normally exactly when the utterances
    list is empty; with an utterance stored it raises [NameError], whatever
    the route asked for. *)
Theorem delete_returns_iff_no_utterance (h : heap) (a : Np.ndarray2) (lr lu : loc)
    (rs us : list string) (route_name : string) :
  h !! lr = Some (StrList rs) → h !! lu = Some (StrList us) →
  length rs = Np.shape0 a →
  (snd (delete route_name (init h (Some a) (Some lr) (Some lu))) = Return () ↔ us = [])
  ∧ (us ≠ [] →
     snd (delete route_name (init h (Some a) (Some lr) (Some lu))) = Raise (NameError "i")).
Proof.
  intros Hlr Hlu Hrows. rewrite (delete_run h a lr lu rs us route_name Hlr Hlu Hrows).
  by destruct us.
Qed.

(** * [add] on objects built by the constructor *)

(** [add] is not atomic when the routes list is missing: on an object
    constructed with an array and no routes, a vector of the array's
    dimension is stacked onto the array, and only then does the call raise
    [AttributeError]. *)
Theorem add_without_routes_list (h : heap) (a : Np.ndarray2) (u : option loc)
    (route utterance : string) (vector : Np.ndarray1) :
  length vector = Np.shape1 a →
  ∃ msg,
    add route utterance vector (init h (Some a) None u)
    = (init h (Some {| Np.rows := Np.rows a ++ [vector]; Np.shape1 := Np.shape1 a |}) None u,
       Raise (AttributeError msg)).
Proof.
  intros Hlen. unfold init. py_unfold. unfold Np.vstack.
  apply Nat.eqb_eq in Hlen. rewrite Hlen. by eexists.
Qed.

(** The attributes are references: on an object constructed with one list
    for both routes and utterances, [add] appends the route and then the
    utterance to that one list. *)
Theorem add_on_shared_list (h : heap) (a : Np.ndarray2) (l : loc) (xs : list string)
    (route utterance : string) (vector : Np.ndarray1) :
  h !! l = Some (StrList xs) → length vector = Np.shape1 a →
  ∃ w', add route utterance vector (init h (Some a) (Some l) (Some l)) = (w', Return ())
        ∧ stored_routes w' = xs ++ [route; utterance]
        ∧ stored_utterances w' = xs ++ [route; utterance].
Proof.
  intros Hl Hlen. unfold init. py_unfold. unfold Np.vstack.
  apply Nat.eqb_eq in Hlen. rewrite Hlen.
  cbn [objects self index routes utterances]. rewrite Hl.
  cbn [objects self index routes utterances].
  rewrite list_lookup_insert_eq by (by eapply lookup_lt_Some).
  eexists. split; [done|].
  unfold stored_routes, stored_utterances, strings_at.
  cbn [objects self routes utterances mbind option_bind].
  rewrite list_lookup_insert_eq by (rewrite length_insert; by eapply lookup_lt_Some).
  simpl. by rewrite <- app_assoc.
Qed.

(** * Lists a call handed out *)

Section Detached.

Variable similarity : Np.ndarray1 → Np.ndarray1 → Q.

Lemma add_detached (w : world) a rs us (l : loc) (xs : list string)
    route utterance vector :
  consistent w a rs us → detached w l xs →
  detached (fst (add route utterance vector w)) l xs.
Proof.
  intros Hc (Hl & Hnr & Hnu).
  apply consistent_shape in Hc as (h & lr & lu & -> & Hlr & Hlu & Hsep).
  cbn [objects self routes utterances] in *.
  py_unfold. unfold Np.vstack.
  destruct (length vector =? Np.shape1 a); [|done].
  cbn [objects self index routes utterances]. rewrite Hlr.
  cbn [objects self index routes utterances].
  rewrite list_lookup_insert_ne, Hlu by done.
  cbn [fst]. repeat split; cbn [objects self routes utterances]; try done.
  rewrite !list_lookup_insert_ne; [done|congruence..].
Qed.

Lemma delete_detached (w : world) a rs us (l : loc) (xs : list string) route_name :
  consistent w a rs us → detached w l xs →
  detached (fst (delete route_name w)) l xs.
Proof.
  intros Hc (Hl & Hnr & Hnu). pose proof (c_rows _ _ _ _ Hc) as Hrows.
  pose proof (c_never_empty _ _ _ _ Hc) as Hne.
  apply consistent_shape in Hc as (h & lr & lu & -> & Hlr & Hlu & Hsep).
  cbn [objects self routes utterances] in *.
  change {| objects := h;
            self := {| index := Some a; routes := Some lr; utterances := Some lu |} |}
    with (init h (Some a) (Some lr) (Some lu)).
  rewrite (delete_run h a lr lu rs us route_name Hlr Hlu Hrows).
  destruct us as [|u0 us]; [done|].
  cbn [fst]. unfold init. repeat split; cbn [objects self routes utterances]; try done.
  - by apply lookup_app_l_Some.
  - intros [= <-]. apply lookup_lt_Some in Hl. lia.
Qed.

Lemma after_detached (c : call) (w : world) (s : contents) (l : loc) (xs : list string) :
  holds w s → detached w l xs → detached (after similarity c w) l xs.
Proof.
  intros Hs Hd. destruct c as [r u v| | |q k|r].
  - rewrite after_add. by eapply add_detached.
  - rewrite after_get_routes, (get_routes_consistent _ _ _ _ Hs).
    destruct Hd as (Hl & Hnr & Hnu). repeat split; cbn; try done.
    by apply lookup_app_l_Some.
  - by rewrite after_describe.
  - rewrite after_query.
    destruct (query_consistent similarity q k _ _ _ _ Hs) as (scores & labels & -> & _).
    destruct Hd as (Hl & Hnr & Hnu). repeat split; cbn; try done.
    by apply lookup_app_l_Some.
  - rewrite after_delete. by eapply delete_detached.
Qed.

Lemma run_detached (cs : list call) (w : world) (s : contents) (l : loc) (xs : list string) :
  holds w s → detached w l xs → detached (run similarity cs w) l xs.
Proof.
  revert w s. induction cs as [|c cs IH]; intros w s Hs Hd; [done|].
  apply (IH (after similarity c w) (step_contents c s)).
  - by apply after_holds.
  - by eapply after_detached.
Qed.

(** The list of labels [query] returned is a snapshot: it is a new list
    and no later call changes it. *)
Theorem query_result_snapshot (cs cs' : list call) (query_vector : Np.ndarray1)
    (top_k : nat) (w1 : world) (scores : list Q) (l : loc) (labels : list string) :
  query similarity query_vector top_k (run similarity cs fresh) = (w1, Return (scores, l)) →
  strings_at (objects w1) (Some l) = Some labels →
  strings_at (objects (run similarity cs' w1)) (Some l) = Some labels.
Proof.
  intros Hq Hl.
  destruct (reachable_view similarity cs) as [[_ Hrun]|[_ (s & Hs & _)]].
  { by rewrite Hrun in Hq. }
  destruct (query_consistent similarity query_vector top_k _ _ _ _ Hs)
    as (scores' & labels' & Hq' & _).
  rewrite Hq' in Hq. injection Hq as <- <- <-.
  assert (Hs1 : holds {| objects := objects (run similarity cs fresh) ++ [StrList labels'];
                         self := self (run similarity cs fresh) |} s).
  { by eapply consistent_alloc. }
  apply strings_at_Some in Hl as (l' & [= <-] & Hl).
  assert (Hd : detached {| objects := objects (run similarity cs fresh) ++ [StrList labels'];
                           self := self (run similarity cs fresh) |}
                 (length (objects (run similarity cs fresh))) labels).
  { split; [done|]. cbn [self].
    pose proof (c_routes _ _ _ _ Hs) as Hr. pose proof (c_utterances _ _ _ _ Hs) as Hu.
    apply strings_at_Some in Hr as (lr & -> & Hlr).
    apply strings_at_Some in Hu as (lu & -> & Hlu).
    apply lookup_lt_Some in Hlr, Hlu. split; intros [= ->]; lia. }
  destruct (run_detached cs' _ s _ _ Hs1 Hd) as (Hl' & _).
  apply strings_at_Some. eauto.
Qed.

End Detached.

(** * The theorems above at concrete inputs *)

Lemma dimension_fixed_by_first_add_witness :
  ∃ n,
    snd (describe (run Linear.dot
                     ([CallDescribe; CallDelete "a"]
                      ++ CallAdd "a" "x" [1; 2]%Q
                         :: [CallAdd "b" "y" [3%Q]; CallDelete "a"; CallAdd "c" "z" [5; 6]%Q])
                     fresh))
    = Return {| type := "local"; dimensions := length [1; 2]%Q; vectors := n |}.
Proof.
  apply (dimension_fixed_by_first_add Linear.dot [CallDescribe; CallDelete "a"]
           [CallAdd "b" "y" [3%Q]; CallDelete "a"; CallAdd "c" "z" [5; 6]%Q]
           "a" "x" [1; 2]%Q).
  reflexivity.
Defined.

Lemma delete_removes_label_witness :
  ("b" ∉ stored_routes
           (after Linear.dot (CallDelete "b")
              (run Linear.dot [CallAdd "a" "x" [1%Q]; CallAdd "b" "y" [2%Q];
                               CallAdd "a" "z" [3%Q]] fresh)))
  ∧ ("b" ∉ ["a"; "a"]).
Proof.
  destruct (delete_removes_label Linear.dot
              [CallAdd "a" "x" [1%Q]; CallAdd "b" "y" [2%Q]; CallAdd "a" "z" [3%Q]] "b")
    as [Hstored Hquery].
  split; [exact Hstored|].
  eapply (Hquery [1%Q] 5); vm_compute; reflexivity.
Defined.

Lemma delete_absent_keeps_contents_witness :
  stored_utterances
    (after Linear.dot (CallDelete "c")
       (run Linear.dot [CallAdd "a" "x" [1%Q]; CallAdd "b" "y" [2%Q]] fresh))
  = stored_utterances (run Linear.dot [CallAdd "a" "x" [1%Q]; CallAdd "b" "y" [2%Q]] fresh).
Proof.
  apply (delete_absent_keeps_contents Linear.dot
           [CallAdd "a" "x" [1%Q]; CallAdd "b" "y" [2%Q]] "c").
  vm_compute. intros Hin. by repeat (apply elem_of_cons in Hin as [Hin|Hin]; [done|]);
    apply elem_of_nil in Hin.
Defined.

Lemma add_then_delete_witness :
  stored_routes
    (run Linear.dot [CallAdd "c" "z" [3%Q]; CallDelete "c"]
       (run Linear.dot [CallAdd "a" "x" [1%Q]; CallAdd "b" "y" [2%Q]] fresh))
  = stored_routes (run Linear.dot [CallAdd "a" "x" [1%Q]; CallAdd "b" "y" [2%Q]] fresh).
Proof.
  apply (add_then_delete Linear.dot
           [CallAdd "a" "x" [1%Q]; CallAdd "b" "y" [2%Q]] "c" "z" [3%Q]).
  - reflexivity.
  - vm_compute. intros Hin. by repeat (apply elem_of_cons in Hin as [Hin|Hin]; [done|]);
      apply elem_of_nil in Hin.
Defined.

Lemma get_routes_follows_routes_witness :
  ∃ w' l ps,
    get_routes (run Linear.dot [CallAdd "a" "x" [1%Q]; CallAdd "b" "y" [2%Q];
                                CallDelete "a"] fresh)
    = (w', Return l)
    ∧ pairs_at (objects w') l = Some ps
    ∧ ps = combine
             (stored_routes (run Linear.dot [CallAdd "a" "x" [1%Q]; CallAdd "b" "y" [2%Q];
                                             CallDelete "a"] fresh))
             (stored_utterances (run Linear.dot [CallAdd "a" "x" [1%Q]; CallAdd "b" "y" [2%Q];
                                                 CallDelete "a"] fresh))
    ∧ map fst ps
      = stored_routes (run Linear.dot [CallAdd "a" "x" [1%Q]; CallAdd "b" "y" [2%Q];
                                       CallDelete "a"] fresh)
    ∧ length ps
      = entries (run Linear.dot [CallAdd "a" "x" [1%Q]; CallAdd "b" "y" [2%Q];
                                 CallDelete "a"] fresh).
Proof.
  apply (get_routes_follows_routes Linear.dot
           [CallAdd "a" "x" [1%Q]; CallAdd "b" "y" [2%Q]; CallDelete "a"]).
  reflexivity.
Defined.

Lemma only_add_writes_witness :
  objects (after Linear.dot (CallDelete "a")
             (run Linear.dot [CallAdd "a" "x" [1%Q]] fresh)) !! 0
  = Some (StrList ["a"]).
Proof.
  apply (only_add_writes Linear.dot (CallDelete "a")
           (run Linear.dot [CallAdd "a" "x" [1%Q]] fresh) 0 (StrList ["a"]));
    reflexivity.
Defined.

Lemma get_routes_read_only_witness :
  stored_routes (fst (get_routes (run Linear.dot [CallAdd "a" "x" [1%Q]] fresh)))
  = stored_routes (run Linear.dot [CallAdd "a" "x" [1%Q]] fresh)
  ∧ stored_utterances (fst (get_routes (run Linear.dot [CallAdd "a" "x" [1%Q]] fresh)))
    = stored_utterances (run Linear.dot [CallAdd "a" "x" [1%Q]] fresh).
Proof.
  apply (get_routes_read_only Linear.dot (run Linear.dot [CallAdd "a" "x" [1%Q]] fresh)).
  by exists [CallAdd "a" "x" [1%Q]].
Defined.


Lemma delete_returns_iff_no_utterance_witness :
  snd (delete "a" (init [StrList ["a"]; StrList ["x"]] (Some (Np.reshape_1_m1 [1%Q]))
                     (Some 0) (Some 1)))
  = Raise (NameError "i").
Proof.
  apply (delete_returns_iff_no_utterance [StrList ["a"]; StrList ["x"]]
           (Np.reshape_1_m1 [1%Q]) 0 1 ["a"] ["x"] "a"); done.
Defined.

Lemma add_without_routes_list_witness :
  ∃ msg,
    add "a" "x" [3; 4]%Q (init [] (Some (Np.reshape_1_m1 [1; 2]%Q)) None None)
    = (init [] (Some {| Np.rows := [[1; 2]; [3; 4]]%Q; Np.shape1 := 2 |}) None None,
       Raise (AttributeError msg)).
Proof.
  apply (add_without_routes_list [] (Np.reshape_1_m1 [1; 2]%Q) None "a" "x" [3; 4]%Q).
  reflexivity.
Defined.

Lemma add_on_shared_list_witness :
  ∃ w',
    add "b" "y" [2%Q] (init [StrList ["a"]] (Some (Np.reshape_1_m1 [1%Q])) (Some 0) (Some 0))
    = (w', Return ())
    ∧ stored_routes w' = ["a"] ++ ["b"; "y"]
    ∧ stored_utterances w' = ["a"] ++ ["b"; "y"].
Proof.
  apply (add_on_shared_list [StrList ["a"]] (Np.reshape_1_m1 [1%Q]) 0 ["a"] "b" "y" [2%Q]);
    reflexivity.
Defined.

Lemma query_result_snapshot_witness :
  strings_at
    (objects
       (run Linear.dot [CallAdd "b" "y" [2%Q]; CallDelete "a"]
          (fst (query Linear.dot [1%Q] 1 (run Linear.dot [CallAdd "a" "x" [1%Q]] fresh)))))
    (Some 2)
  = Some ["a"].
Proof.
  apply (query_result_snapshot Linear.dot [CallAdd "a" "x" [1%Q]]
           [CallAdd "b" "y" [2%Q]; CallDelete "a"] [1%Q] 1
           (fst (query Linear.dot [1%Q] 1 (run Linear.dot [CallAdd "a" "x" [1%Q]] fresh)))
           [1%Q] 2 ["a"]);
    reflexivity.
Defined.
